(** * Monte-Carlo tree search of the cube solver (src/mcts.py)

    A shallow embedding of the class [MCTS]: its five dictionaries, the
    recursive [search] and the public [getActionProb].

    Modelling choices.
    - Python floats are idealised as real numbers ([R]): no rounding, no NaN;
      the only infinity is the [-float('inf')] that initialises [cur_best].
    - Python ints that only count (values of [Nsa] and [Ns]) are [nat];
      action indices, which start at the sentinel [-1], are [Z].
    - The dictionaries are finite maps ([gmap]); a subscript on a missing key
      raises [KeyError], a list subscript out of range raises [IndexError].
    - The interpreter's recursion limit is the [limit] argument of [search]:
      a call that would exceed it raises [RecursionError].
    - The collaborators that are not part of mcts.py (the cube environment,
      the network and numpy's random generator) are parameters of the
      section; the calls made to them are logged in the ghost field [calls]. *)

From Stdlib Require Import Reals Lra Lia ZArith List.
From stdpp Require Import gmap strings list.

Local Open Scope Z_scope.

(** ** Exceptions and the state-and-exception monad *)

Inductive exn :=
| KeyError | IndexError | ValueError | ZeroDivisionError | RecursionError.

Inductive result (A : Type) :=
| Ok (a : A)
| Raise (e : exn).
Arguments Ok {A} a.
Arguments Raise {A} e.

(** [cur_best] starts at minus infinity and then holds a score. *)
Inductive bound := NegInf | Finite (r : R).

(** [u > cur_best] of the selection loop. *)
Definition gt_bound (u : R) (cur_best : bound) : bool :=
  match cur_best with
  | NegInf => true
  | Finite c => if Rgt_dec u c then true else false
  end.

Definition EPS : R := (1 / 100000000)%R.

Definition action_dim : Z := 6.

(** [range(n)] *)
Definition range (n : Z) : list Z := map Z.of_nat (seq 0 (Z.to_nat n)).

(** [l[i]] on a Python sequence: negative indices count from the end. *)
Definition py_getitem {A} (l : list A) (i : Z) : result A :=
  let n := Z.of_nat (length l) in
  let j := if Z.ltb i 0 then i + n else i in
  if Z.ltb j 0 then Raise IndexError
  else match l !! Z.to_nat j with
       | Some x => Ok x
       | None => Raise IndexError
       end.

(** [l[i] = x] on a Python list. *)
Definition py_setitem {A} (l : list A) (i : Z) (x : A) : result (list A) :=
  let n := Z.of_nat (length l) in
  let j := if Z.ltb i 0 then i + n else i in
  if Z.ltb j 0 then Raise IndexError
  else if Z.ltb j n then Ok (<[Z.to_nat j := x]> l)
  else Raise IndexError.

(** [x ** e] for a Python int [x >= 0] and a float [e]. *)
Definition py_pow (x : nat) (e : R) : result R :=
  match x with
  | O => if Rlt_dec e 0 then Raise ZeroDivisionError
         else if Req_dec_T e 0 then Ok 1%R else Ok 0%R
  | S _ => Ok (Rpower (INR x) e)
  end.

(** [x / y] on floats. *)
Definition py_div (x y : R) : result R :=
  if Req_dec_T y 0 then Raise ZeroDivisionError else Ok (x / y)%R.

Fixpoint mapM {A B} (f : A -> result B) (l : list A) : result (list B) :=
  match l with
  | [] => Ok []
  | x :: l' =>
      match f x with
      | Raise e => Raise e
      | Ok y => match mapM f l' with
                | Raise e => Raise e
                | Ok ys => Ok (y :: ys)
                end
      end
  end.

Definition sumR (l : list R) : R := fold_left Rplus l 0%R.

(** [np.argwhere(counts == m).flatten()] *)
Definition argwhere_eq (counts : list nat) (m : nat) : list Z :=
  map fst (filter (fun ix => ix.2 = m) (zip (range (Z.of_nat (length counts))) counts)).

(** [np.max(counts)] on a non-empty list of non-negative ints. *)
Definition list_max_nat (l : list nat) : nat := fold_right Nat.max 0%nat l.

(** [k in d] and [d[k]] on a dictionary. *)
Definition contains `{Countable K} {V} (d : gmap K V) (k : K) : bool :=
  bool_decide (is_Some (d !! k)).

Definition subscript `{Countable K} {V} (d : gmap K V) (k : K) : result V :=
  match d !! k with
  | Some v => Ok v
  | None => Raise KeyError
  end.

Module MCTS.
Section Mcts.

(** [board]: the state array handed around by the environment; [env]:
    the internal configuration of the environment [self.game]; [rng]:
    the state of numpy's global random generator. *)
Context {board env rng : Type}.
(** [np.array2string] *)
Variable array2string : board -> string.
(** [self.game.step(a)]: new configuration, next state and [done]. *)
Variable step : env -> Z -> env * (board * bool).
(** [self.model.predict]: value and prior vector. *)
Variable predict : board -> R * list R.
(** [np.random.choice] *)
Variable choice : rng -> list Z -> Z * rng.

Inductive event :=
| Predict (b : board)
| Step (a : Z).

(** The fields of an [MCTS] object, the environment it holds, and the
    ghost log of calls to the collaborators (most recent last). *)
Record mcts := Mcts {
  game : env;
  numMCTSSim : nat;
  cpuct : R;
  Qsa : gmap (string * Z) R;
  Nsa : gmap (string * Z) nat;
  Ns : gmap string nat;
  Ps : gmap string (list R);
  Es : gmap string bool;
  seed : rng;
  calls : list event
}.

(** [MCTS.__init__] *)
Definition init (g : env) (sims : nat) (c : R) (r : rng) : mcts :=
  Mcts g sims c ∅ ∅ ∅ ∅ ∅ r [].

Definition upd_game (f : env -> env) (st : mcts) : mcts :=
  Mcts (f (game st)) (numMCTSSim st) (cpuct st) (Qsa st) (Nsa st) (Ns st)
       (Ps st) (Es st) (seed st) (calls st).
Definition upd_Qsa (f : gmap (string * Z) R -> gmap (string * Z) R)
           (st : mcts) : mcts :=
  Mcts (game st) (numMCTSSim st) (cpuct st) (f (Qsa st)) (Nsa st) (Ns st)
       (Ps st) (Es st) (seed st) (calls st).
Definition upd_Nsa (f : gmap (string * Z) nat -> gmap (string * Z) nat)
           (st : mcts) : mcts :=
  Mcts (game st) (numMCTSSim st) (cpuct st) (Qsa st) (f (Nsa st)) (Ns st)
       (Ps st) (Es st) (seed st) (calls st).
Definition upd_Ns (f : gmap string nat -> gmap string nat) (st : mcts) : mcts :=
  Mcts (game st) (numMCTSSim st) (cpuct st) (Qsa st) (Nsa st) (f (Ns st))
       (Ps st) (Es st) (seed st) (calls st).
Definition upd_Ps (f : gmap string (list R) -> gmap string (list R))
           (st : mcts) : mcts :=
  Mcts (game st) (numMCTSSim st) (cpuct st) (Qsa st) (Nsa st) (Ns st)
       (f (Ps st)) (Es st) (seed st) (calls st).
Definition upd_Es (f : gmap string bool -> gmap string bool) (st : mcts) : mcts :=
  Mcts (game st) (numMCTSSim st) (cpuct st) (Qsa st) (Nsa st) (Ns st)
       (Ps st) (f (Es st)) (seed st) (calls st).
Definition upd_seed (f : rng -> rng) (st : mcts) : mcts :=
  Mcts (game st) (numMCTSSim st) (cpuct st) (Qsa st) (Nsa st) (Ns st)
       (Ps st) (Es st) (f (seed st)) (calls st).
Definition log (e : event) (st : mcts) : mcts :=
  Mcts (game st) (numMCTSSim st) (cpuct st) (Qsa st) (Nsa st) (Ns st)
       (Ps st) (Es st) (seed st) (calls st ++ [e]).

(** Computations that read and write the object and may raise. On an
    exception the writes made so far stay. *)
Definition M (A : Type) : Type := mcts -> result A * mcts.

Definition ret {A} (a : A) : M A := fun st => (Ok a, st).
Definition raise {A} (e : exn) : M A := fun st => (Raise e, st).
Definition bind {A B} (c : M A) (k : A -> M B) : M B :=
  fun st => match c st with
            | (Ok a, st') => k a st'
            | (Raise e, st') => (Raise e, st')
            end.
Definition gets {A} (f : mcts -> A) : M A := fun st => (Ok (f st), st).
Definition try {A} (f : mcts -> result A) : M A := fun st => (f st, st).
Definition writes (f : mcts -> mcts) : M unit := fun st => (Ok tt, f st).

Notation "x <- c ;; k" := (bind c (fun x => k))
  (at level 100, c at next level, right associativity).
Notation "c ;;; k" := (bind c (fun _ => k))
  (at level 100, right associativity).

(** *** Selection: lines 111-126 *)

(** The score [u] that the body of the loop computes for action [a]. *)
Definition ucb (st : mcts) (s : string) (a : Z) : result R :=
  if contains (Qsa st) (s, a) then
    match subscript (Qsa st) (s, a) with Raise e => Raise e | Ok q =>
    match subscript (Ps st) s with Raise e => Raise e | Ok p =>
    match py_getitem p a with Raise e => Raise e | Ok pa =>
    match subscript (Ns st) s with Raise e => Raise e | Ok n =>
    match subscript (Nsa st) (s, a) with Raise e => Raise e | Ok nsa =>
      Ok (q + cpuct st * pa * sqrt (INR n) / (1 + INR nsa))%R
    end end end end end
  else
    match subscript (Ps st) s with Raise e => Raise e | Ok p =>
    match py_getitem p a with Raise e => Raise e | Ok pa =>
    match subscript (Ns st) s with Raise e => Raise e | Ok n =>
      Ok (cpuct st * pa * sqrt (INR n + EPS))%R
    end end end.

(** The [for a in range(self.action_dim)] loop with its two variables. *)
Fixpoint select_loop (st : mcts) (s : string) (actions : list Z)
         (cur_best : bound) (best_act : Z) : result Z :=
  match actions with
  | [] => Ok best_act
  | a :: rest =>
      match ucb st s a with
      | Raise e => Raise e
      | Ok u =>
          if gt_bound u cur_best
          then select_loop st s rest (Finite u) a
          else select_loop st s rest cur_best best_act
      end
  end.

Definition select (st : mcts) (s : string) : result Z :=
  select_loop st s (range action_dim) NegInf (-1).

(** *** Backup: lines 133-141 *)

Definition backup (s : string) (a : Z) (v : R) : M unit :=
  (edge <- gets (fun st => contains (Qsa st) (s, a)) ;;
   if edge : bool then
     n <- try (fun st => subscript (Nsa st) (s, a)) ;;
     q <- try (fun st => subscript (Qsa st) (s, a)) ;;
     n' <- try (fun st => subscript (Nsa st) (s, a)) ;;
     writes (upd_Qsa <[(s, a) := ((INR n * q + v) / (INR n' + 1))%R]>) ;;;
     m <- try (fun st => subscript (Nsa st) (s, a)) ;;
     writes (upd_Nsa <[(s, a) := (m + 1)%nat]>)
   else
     writes (upd_Qsa <[(s, a) := v]>) ;;;
     writes (upd_Nsa <[(s, a) := 1%nat]>)) ;;;
  k <- try (fun st => subscript (Ns st) s) ;;
  writes (upd_Ns <[s := (k + 1)%nat]>).

(** *** [MCTS.search]: lines 70-142 *)

(** Line 106, right-hand side. *)
Definition call_predict (canonicalBoard : board) : M (R * list R) :=
  fun st => (Ok (predict canonicalBoard), log (Predict canonicalBoard) st).

(** Lines 106-109. *)
Definition expand (canonicalBoard : board) : M R :=
  let s := array2string canonicalBoard in
  out <- call_predict canonicalBoard ;;
  writes (upd_Ps <[s := out.2]>) ;;;
  writes (upd_Ns <[s := 0%nat]>) ;;;
  ret (- out.1)%R.

(** Line 127. *)
Definition game_step (a : Z) : M (board * bool) :=
  fun st =>
    let out := step (game st) a in
    (Ok out.2, log (Step a) (upd_game (fun _ => out.1) st)).

Fixpoint search (limit : nat) (canonicalBoard : board) (game_ended : bool)
  : M R :=
  match limit with
  | O => raise RecursionError
  | S limit' =>
      let s := array2string canonicalBoard in
      seen <- gets (fun st => contains (Es st) s) ;;
      (if seen : bool then ret tt
       else writes (upd_Es <[s := game_ended]>)) ;;;
      terminal <- try (fun st => subscript (Es st) s) ;;
      if terminal : bool then ret 1%R
      else
        expanded <- gets (fun st => contains (Ps st) s) ;;
        if negb expanded then expand canonicalBoard
        else
          a <- try (fun st => select st s) ;;
          out <- game_step a ;;
          v <- search limit' out.1 out.2 ;;
          backup s a v ;;;
          ret (- v)%R
  end.

(** *** [MCTS.getActionProb]: lines 37-68 *)

(** Lines 50-51. *)
Fixpoint simulations (limit n : nat) (canonicalBoard : board) : M unit :=
  match n with
  | O => ret tt
  | S n' =>
      search limit canonicalBoard false ;;;
      simulations limit n' canonicalBoard
  end.

(** Line 54. *)
Definition root_counts (st : mcts) (s : string) : list nat :=
  map (fun a => if contains (Nsa st) (s, a)
                then default 0%nat (Nsa st !! (s, a)) else 0%nat)
      (range action_dim).

(** Line 60. *)
Definition random_choice (l : list Z) : M Z :=
  match l with
  | [] => raise ValueError
  | _ => fun st => let out := choice (seed st) l in
                   (Ok out.1, upd_seed (fun _ => out.2) st)
  end.

Definition getActionProb (limit : nat) (canonicalBoard : board) (temp : R)
  : M (list R) :=
  n <- gets numMCTSSim ;;
  simulations limit n canonicalBoard ;;;
  let s := array2string canonicalBoard in
  counts <- gets (fun st => root_counts st s) ;;
  if Req_dec_T temp 0 then
    let bestAs := argwhere_eq counts (list_max_nat counts) in
    bestA <- random_choice bestAs ;;
    let probs := replicate (length counts) 0%R in
    try (fun _ => py_setitem probs bestA 1%R)
  else
    counts' <- try (fun _ => mapM (fun x => py_pow x (1 / temp)%R) counts) ;;
    let counts_sum := sumR counts' in
    try (fun _ => mapM (fun x => py_div x counts_sum) counts').

(** ** Notions used to state the properties *)

(** The state in which the body of [search] continues after lines 96-97. *)
Definition enter (s : string) (game_ended : bool) (st : mcts) : mcts :=
  if contains (Es st) s then st else upd_Es <[s := game_ended]> st.

(** The state in which the recursive call of line 131 starts. *)
Definition descend (s : string) (game_ended : bool) (a : Z) (st : mcts)
  : mcts :=
  log (Step a) (upd_game (fun g => (step g a).1) (enter s game_ended st)).

(** The state after lines 133-141 when no subscript fails. *)
Definition backed_up (s : string) (a : Z) (v : R) (st : mcts) : mcts :=
  let st' :=
    match Qsa st !! (s, a), Nsa st !! (s, a) with
    | Some q, Some n =>
        upd_Nsa <[(s, a) := (n + 1)%nat]>
          (upd_Qsa <[(s, a) := ((INR n * q + v) / (INR n + 1))%R]> st)
    | _, _ =>
        upd_Nsa <[(s, a) := 1%nat]> (upd_Qsa <[(s, a) := v]> st)
    end in
  upd_Ns <[s := (default 0%nat (Ns st !! s) + 1)%nat]> st'.

(** The selection score in the words of the specification: absent
    statistics read as 0. *)
Definition U (st : mcts) (s : string) (a : Z) : R :=
  let prior := nth (Z.to_nat a) (default [] (Ps st !! s)) 0%R in
  let visitCount := INR (default 0%nat (Ns st !! s)) in
  match Nsa st !! (s, a) with
  | Some actionVisits =>
      (default 0 (Qsa st !! (s, a))
       + cpuct st * prior * sqrt visitCount / (1 + INR actionVisits))%R
  | None => (cpuct st * prior * sqrt (visitCount + EPS))%R
  end.

(** The sum over all actions of the visits of the edges out of [s]. *)
Definition edge_visits (st : mcts) (s : string) : nat :=
  sum_list (map (fun a => default 0%nat (Nsa st !! (s, a))) (range action_dim)).

(** Well-formed statistics: the two edge dictionaries have the same keys,
    every expanded state has a visit count, edges leave expanded states
    through actions of the range, and visits are conserved. *)
Record wf (st : mcts) : Prop := {
  wf_edges : forall k, is_Some (Qsa st !! k) <-> is_Some (Nsa st !! k);
  wf_count : forall s, is_Some (Ps st !! s) -> is_Some (Ns st !! s);
  wf_source : forall s a, is_Some (Nsa st !! (s, a)) ->
                          is_Some (Ps st !! s) /\ 0 <= a < action_dim;
  wf_sum : forall s n, Ns st !! s = Some n -> n = edge_visits st s
}.

(** Every stored mean value lies between -1 and 1. *)
Definition bounded (st : mcts) : Prop :=
  forall k q, Qsa st !! k = Some q -> (-1 <= q <= 1)%R.

(** The objects that calls of the two methods, completed or not, produce
    from a new one; between calls the owner of the environment may put it
    in any configuration. *)
Inductive reachable : mcts -> Prop :=
| reach_init g sims c r : reachable (init g sims c r)
| reach_search st limit b game_ended :
    reachable st -> reachable (search limit b game_ended st).2
| reach_getActionProb st limit b temp :
    reachable st -> reachable (getActionProb limit b temp st).2
| reach_env st g :
    reachable st -> reachable (upd_game (fun _ => g) st).

(** What a call may do to the object: the configuration and the cached
    flags and priors stay, and the log grows by queries of the estimator
    on states without a prior and by moves of the range. *)
Definition fresh_call (st : mcts) (e : event) : Prop :=
  match e with
  | Predict b => Ps st !! array2string b = None
  | Step a => 0 <= a < action_dim
  end.

Record extends (st st' : mcts) : Prop := {
  ext_sims : numMCTSSim st' = numMCTSSim st;
  ext_cpuct : cpuct st' = cpuct st;
  ext_Es : forall s e, Es st !! s = Some e -> Es st' !! s = Some e;
  ext_Ps : forall s p, Ps st !! s = Some p -> Ps st' !! s = Some p;
  ext_calls : exists new, calls st' = calls st ++ new /\
                          Forall (fresh_call st) new
}.

(** The walk of [search] from [b] ends after [d] selected actions: the
    state it reaches then is terminal or not expanded. *)
Fixpoint ends_after (d : nat) (b : board) (game_ended : bool) (st : mcts)
  : Prop :=
  let s := array2string b in
  let terminal := default game_ended (Es st !! s) in
  match d with
  | O => terminal = true \/ Ps st !! s = None
  | S d' =>
      terminal = false /\ is_Some (Ps st !! s) /\
      exists a, select st s = Ok a /\
                let out := (step (game st) a).2 in
                ends_after d' out.1 out.2 (descend s game_ended a st)
  end.

End Mcts.

Arguments mcts : clear implicits.
Arguments event : clear implicits.

End MCTS.

(** ** Two small worlds to run the engine in

    Boards are their own keys. In the first world every move leads to a
    board never seen before; in the second no move changes the board, as
    when a move and its inverse alternate. The estimator is the constant
    one of the scenarios of the specification, and the random choice takes
    the first candidate. *)
Module Scenario.

Definition board := string.
Definition array2string (b : board) : string := b.
Definition env := string.
Definition step_fresh (g : env) (a : Z) : env * (board * bool) :=
  let b := ("m" +:+ g)%string in (b, (b, false)).
Definition step_loop (g : env) (a : Z) : env * (board * bool) :=
  (g, (g, false)).
Definition prior6 : list R :=
  [1 / 6; 1 / 6; 1 / 6; 1 / 6; 1 / 6; 1 / 6]%R.
Definition predict (b : board) : R * list R := ((1 / 2)%R, prior6).
Definition rng := unit.
Definition choice (r : rng) (l : list Z) : Z * rng := (hd 0 l, r).
Definition root : board := "root".

(** A new engine on the root, with exploration constant 1. *)
Definition fresh (sims : nat) : MCTS.mcts board env rng :=
  MCTS.init root sims 1%R tt.

(** The engine after one simulation from the root: the root is expanded. *)
Definition expanded (step : env -> Z -> env * (board * bool)) (sims : nat)
  : MCTS.mcts board env rng :=
  (MCTS.search array2string step predict 1 root false (fresh sims)).2.

(** The engine in the first world after a second simulation. *)
Definition visited (sims : nat) : MCTS.mcts board env rng :=
  (MCTS.search array2string step_fresh predict 2 root false
     (expanded step_fresh sims)).2.

End Scenario.

(** ** Notions for further properties of the engine *)

Section Walks.

Context {board env rng : Type}.
Variable array2string : board -> string.
Variable step : env -> Z -> env * (board * bool).

(** The moves passed to [game.step] and the boards passed to
    [model.predict] in a log, in order. *)
Definition moves (l : list (MCTS.event board)) : list Z :=
  omap (fun e => match e with MCTS.Step a => Some a | _ => None end) l.

Definition queried (l : list (MCTS.event board)) : list board :=
  omap (fun e => match e with MCTS.Predict b => Some b | _ => None end) l.

(** The configuration of the environment after a sequence of moves. *)
Definition replay (g : env) (acts : list Z) : env :=
  fold_left (fun g a => (step g a).1) acts g.

(** Further facts about the dictionaries of an engine: an edge has been
    visited at least once, only expanded states have a visit count, an
    expanded state is cached as not terminal, and every stored prior is the
    one the estimator returned on a logged query for that key. *)
Record tidy (predict : board -> R * list R) (st : MCTS.mcts board env rng)
  : Prop := {
  tidy_visits : forall k n, MCTS.Nsa st !! k = Some n -> (1 <= n)%nat;
  tidy_counted : forall s, is_Some (MCTS.Ns st !! s) ->
                           is_Some (MCTS.Ps st !! s);
  tidy_live : forall s, is_Some (MCTS.Ps st !! s) ->
                        MCTS.Es st !! s = Some false;
  tidy_prior : forall s p, MCTS.Ps st !! s = Some p ->
                           exists b, b ∈ queried (MCTS.calls st) /\
                                     array2string b = s /\
                                     p = (predict b).2;
  tidy_queried : forall b, b ∈ queried (MCTS.calls st) ->
                           is_Some (MCTS.Ps st !! array2string b);
  tidy_once : NoDup (map array2string (queried (MCTS.calls st)))
}.

(** [probs = [0] * n; probs[a] = 1] *)
Definition one_hot (n : nat) (a : Z) : list R :=
  <[Z.to_nat a := 1%R]> (replicate n 0%R).


End Walks.

(** ** The training driver (src/train.py)

    The parts of train.py that compute: the split of the epochs over the
    worker processes, the histories filled in when training resumes, the
    key under which a worker records a loss, and the validation loop. The
    network, the optimiser and the cube environment are not part of the
    file; they appear as parameters. *)
Module Train.

(** [range(lo, hi)] *)
Definition range2 (lo hi : Z) : list Z :=
  map (fun i => lo + Z.of_nat i) (seq 0 (Z.to_nat (hi - lo))).

(** [a // b] and [a % b] on ints: Python rounds the quotient down, as
    [Z.div] does. *)
Definition py_floordiv (a b : Z) : result Z :=
  if Z.eqb b 0 then Raise ZeroDivisionError else Ok (a / b).

Definition py_mod (a b : Z) : result Z :=
  if Z.eqb b 0 then Raise ZeroDivisionError else Ok (a mod b).

(** [l[i] += 1] *)
Definition increment (l : list Z) (i : Z) : result (list Z) :=
  match py_getitem l i with
  | Raise e => Raise e
  | Ok x => py_setitem l i (x + 1)
  end.

Fixpoint increment_all (l : list Z) (indices : list Z) : result (list Z) :=
  match indices with
  | [] => Ok l
  | i :: rest =>
      match increment l i with
      | Raise e => Raise e
      | Ok l' => increment_all l' rest
      end
  end.

(** Lines 86-88 of [train]. *)
Definition worker_epochs_list (epochs num_processes : Z) : result (list Z) :=
  match mapM (fun _ => py_floordiv epochs num_processes)
             (range num_processes) with
  | Raise e => Raise e
  | Ok l =>
      match py_mod epochs num_processes with
      | Raise e => Raise e
      | Ok r => increment_all l (range r)
      end
  end.

(** Lines 58-59 of [train]: the losses of the epochs before the checkpoint
    are not known and recorded as 0.0. *)
Definition prefill_loss (start_epoch : Z) (loss_history : gmap Z (list R))
  : gmap Z (list R) :=
  fold_left (fun h idx => <[idx := [0%R]]> h) (range2 1 start_epoch)
            loss_history.

(** Lines 60-61 of [train]. *)
Definition prefill_valid (start_epoch validation_epoch : Z)
           (sample_scramble_count : Z) (valid_history : gmap Z (list R))
  : result (gmap Z (list R)) :=
  match py_floordiv (start_epoch - 1) validation_epoch with
  | Raise e => Raise e
  | Ok n =>
      Ok (fold_left
            (fun h idx =>
               <[idx * validation_epoch
                 := replicate (Z.to_nat sample_scramble_count) 0%R]> h)
            (range2 1 (n + 1)) valid_history)
  end.

(** Lines 158-159 of [single_train]: the loss of an epoch goes under the
    key one past the number of entries. *)
Definition record_loss (loss : R) (loss_history : gmap Z (list R))
  : gmap Z (list R) :=
  let global_epoch := Z.of_nat (size loss_history) + 1 in
  <[global_epoch := [loss]]> loss_history.

(** The sum of a list of ints. *)
Definition sumZ (l : list Z) : Z := fold_right Z.add 0 l.

(** A history whose keys are 1, 2, ..., up to its size. *)
Definition contiguous (h : gmap Z (list R)) : Prop :=
  forall k, is_Some (h !! k) <-> 1 <= k <= Z.of_nat (size h).

Section Validation.

(** [world]: everything the collaborators may read and change (the cube,
    the random state of the policy); [state]: what the environment hands
    out; [action]: what the policy returns. *)
Context {world state action : Type}.
(** [model.get_action(state_tensor)] *)
Variable get_action : world -> state -> world * action.
(** [env.reset(seed=..., scramble_count=...)] *)
Variable reset : world -> Z -> Z -> world * state.
(** [env.step(action)]: next state and [done]. *)
Variable step : world -> action -> world * (state * bool).

(** The world with ghost counters of the calls to the environment. *)
Record run := Run {
  now : world;
  resets : nat;
  steps : nat
}.

(** The three entries of [cfg['validation']] that the function uses. *)
Record config := Config {
  max_timesteps : Z;
  sample_scramble_count : Z;
  sample_cube_count : Z
}.

(** Lines 187-195: one episode of at most [timesteps] moves; the flag
    tells whether the cube was solved. *)
Fixpoint episode (timesteps : nat) (r : run) (s : state) : run * bool :=
  match timesteps with
  | O => (r, false)
  | S timesteps' =>
      let (w1, a) := get_action (now r) s in
      let '(w2, (next_state, done)) := step w1 a in
      let r' := Run w2 (resets r) (S (steps r)) in
      if done : bool then (r', true) else episode timesteps' r' next_state
  end.

(** Lines 185-195: the cubes of one scramble depth; [solve_count] is
    carried along. *)
Fixpoint cubes (cfg : config) (seed : list Z) (scramble_count : Z)
         (indices : list Z) (r : run) (solve_count : nat)
  : result (run * nat) :=
  match indices with
  | [] => Ok (r, solve_count)
  | idx :: rest =>
      match py_getitem seed (idx - 1) with
      | Raise e => Raise e
      | Ok sd =>
          let (w, s) := reset (now r) sd scramble_count in
          let r1 := Run w (S (resets r)) (steps r) in
          let (r2, solved) :=
            episode (length (range2 1 (max_timesteps cfg + 1))) r1 s in
          cubes cfg seed scramble_count rest r2
                (if solved then S solve_count else solve_count)
      end
  end.

(** Lines 183-197: the scramble depths; the percentages are appended. *)
Fixpoint scrambles (cfg : config) (seed : list Z) (depths : list Z)
         (r : run) (solve_percentage_list : list R)
  : result (run * list R) :=
  match depths with
  | [] => Ok (r, solve_percentage_list)
  | scramble_count :: rest =>
      match cubes cfg seed scramble_count
                  (range2 1 (sample_cube_count cfg + 1)) r 0 with
      | Raise e => Raise e
      | Ok (r', solve_count) =>
          match py_div (INR solve_count) (IZR (sample_cube_count cfg)) with
          | Raise e => Raise e
          | Ok ratio =>
              scrambles cfg seed rest r'
                        (solve_percentage_list ++ [(ratio * 100)%R])
          end
      end
  end.

(** [validation]: lines 167-198. *)
Definition validation (cfg : config) (epoch : Z)
           (valid_history : gmap Z (list R)) (r : run)
  : result (run * gmap Z (list R)) :=
  let seed := map (fun i => i * 10) (range (sample_cube_count cfg)) in
  match scrambles cfg seed (range2 1 (sample_scramble_count cfg + 1)) r []
  with
  | Raise e => Raise e
  | Ok (r', solve_percentage_list) =>
      Ok (r', <[epoch := solve_percentage_list]> valid_history)
  end.

(** [env.get_random_samples(...)], which refills the replay buffer, and
    [load_state_dict] followed by [update_params(...)], which returns the
    loss. *)
Variable get_random_samples : world -> world.
Variable update_params : world -> world * R.

(** The loop of [single_train], lines 152-165, for one worker on its own:
    [remaining] is the number of epochs still to run. Printing, plotting
    and saving the model do not act on what is modelled and are left out. *)
Fixpoint epochs_loop (remaining : nat) (local_epoch : Z)
         (sample_epoch validation_epoch : Z) (cfg : config) (r : run)
         (loss_history valid_history : gmap Z (list R))
  : result (run * (gmap Z (list R) * gmap Z (list R))) :=
  match remaining with
  | O => Ok (r, (loss_history, valid_history))
  | S remaining' =>
      let local_epoch := local_epoch + 1 in
      match py_mod (local_epoch - 1) sample_epoch with
      | Raise e => Raise e
      | Ok m =>
          let w1 := if Z.eqb m 0 then get_random_samples (now r)
                    else now r in
          let (w2, loss) := update_params w1 in
          let r2 := Run w2 (resets r) (steps r) in
          let global_epoch := Z.of_nat (size loss_history) + 1 in
          let loss_history' := record_loss loss loss_history in
          match py_mod global_epoch validation_epoch with
          | Raise e => Raise e
          | Ok m' =>
              if Z.eqb m' 0 then
                match validation cfg global_epoch valid_history r2 with
                | Raise e => Raise e
                | Ok (r3, valid_history') =>
                    epochs_loop remaining' local_epoch sample_epoch
                                validation_epoch cfg r3 loss_history'
                                valid_history'
                end
              else
                epochs_loop remaining' local_epoch sample_epoch
                            validation_epoch cfg r2 loss_history'
                            valid_history
          end
      end
  end.

(** [while local_epoch < local_epoch_max] from [local_epoch = 0]. *)
Definition single_train_loop (local_epoch_max : Z)
           (sample_epoch validation_epoch : Z) (cfg : config) (r : run)
           (loss_history valid_history : gmap Z (list R)) :=
  epochs_loop (Z.to_nat local_epoch_max) 0 sample_epoch validation_epoch
              cfg r loss_history valid_history.

End Validation.

End Train.

(** ** A small world to run the validation in

    The world is the number of moves that separate the cube from its
    solved state. A reset puts the cube [scramble_count] moves away, every
    move brings it one closer, and the policy always plays move 0. *)
Module Arena.

Definition world := nat.
Definition get_action (w : world) (s : nat) : world * Z := (w, 0).
Definition reset (w : world) (seed scramble_count : Z) : world * nat :=
  (Z.to_nat scramble_count, Z.to_nat scramble_count).
Definition step (w : world) (a : Z) : world * (nat * bool) :=
  (Nat.pred w, (Nat.pred w, Nat.eqb (Nat.pred w) 0)).

(** Five moves at most, scramble depths 1 and 2, three cubes each. *)
Definition cfg : Train.config := Train.Config 5 2 3.

Definition start : Train.run (world := world) := Train.Run 0%nat 0 0.

(** Sampling leaves the cube alone and every update reports the loss 0.5. *)
Definition get_random_samples (w : world) : world := w.
Definition update_params (w : world) : world * R := (w, (1 / 2)%R).

End Arena.

(** ** Properties *)

Import MCTS.

Section Properties.

Context {board env rng : Type}.
Variable array2string : board -> string.
Variable step : env -> Z -> env * (board * bool).
Variable predict : board -> R * list R.
Variable choice : rng -> list Z -> Z * rng.

Local Abbreviation mcts := (MCTS.mcts board env rng).
Local Abbreviation search := (MCTS.search array2string step predict).
Local Abbreviation expand := (MCTS.expand array2string predict).
Local Abbreviation game_step := (MCTS.game_step step).
Local Abbreviation descend := (MCTS.descend step).
Local Abbreviation simulations := (MCTS.simulations array2string step predict).
Local Abbreviation getActionProb :=
  (MCTS.getActionProb array2string step predict choice).
Local Abbreviation reachable := (MCTS.reachable array2string step predict choice).
Local Abbreviation ends_after := (MCTS.ends_after array2string step).
Local Abbreviation extends := (MCTS.extends array2string).
Local Abbreviation fresh_call := (MCTS.fresh_call array2string).

Implicit Types (st : mcts) (s : string) (a : Z) (b : board) (v : R).

(** *** One level of [search] *)

Ltac unfold_monad :=
  unfold bind, gets, try, writes, ret, raise in *.

Lemma contains_true `{Countable K} {V} (d : gmap K V) (k : K) :
  contains d k = true <-> is_Some (d !! k).
Proof. unfold contains. apply bool_decide_eq_true. Qed.

Lemma contains_false `{Countable K} {V} (d : gmap K V) (k : K) :
  contains d k = false <-> d !! k = None.
Proof.
  unfold contains. rewrite bool_decide_eq_false.
  rewrite eq_None_not_Some. tauto.
Qed.

Lemma enter_Es s ge st :
  Es (enter s ge st) !! s = Some (default ge (Es st !! s)).
Proof.
  unfold enter. destruct (contains (Es st) s) eqn:E.
  - apply contains_true in E as [e He]. by rewrite He.
  - apply contains_false in E. rewrite E. simpl. apply lookup_insert_eq.
Qed.

Lemma search_S limit b ge st :
  search (S limit) b ge st =
  let s := array2string b in
  let st0 := enter s ge st in
  if default ge (Es st !! s) then (Ok 1%R, st0)
  else if contains (Ps st) s then
    match select st s with
    | Raise e => (Raise e, st0)
    | Ok a =>
        let out := (step (game st) a).2 in
        match search limit out.1 out.2 (descend s ge a st) with
        | (Raise e, st2) => (Raise e, st2)
        | (Ok v, st2) =>
            match backup s a v st2 with
            | (Raise e, st3) => (Raise e, st3)
            | (Ok _, st3) => (Ok (- v)%R, st3)
            end
        end
    end
  else expand b st0.
Proof.
  cbn [MCTS.search]. unfold_monad. cbn zeta.
  pose proof (enter_Es (array2string b) ge st) as HE.
  unfold enter in *. unfold descend, MCTS.game_step, enter.
  destruct (contains (Es st) (array2string b)) eqn:E; cbn [fst snd] in *;
    unfold subscript; rewrite HE; cbn [fst snd];
    destruct (default ge (Es st !! array2string b)); try reflexivity;
    cbn [Ps upd_Es];
    destruct (contains (Ps st) (array2string b)); cbn [negb]; reflexivity.
Qed.

(** *** What the steps of [search] leave alone *)

Lemma fresh_call_anti st st' e :
  (forall s, Ps st' !! s = None -> Ps st !! s = None) ->
  fresh_call st' e -> fresh_call st e.
Proof. intros H. destruct e; simpl; auto. Qed.

Lemma extends_refl st : extends st st.
Proof.
  split; auto. exists []. split; [by rewrite app_nil_r | constructor].
Qed.

Lemma extends_trans st1 st2 st3 :
  extends st1 st2 -> extends st2 st3 -> extends st1 st3.
Proof.
  intros [A1 B1 C1 D1 (n1 & E1 & F1)] [A2 B2 C2 D2 (n2 & E2 & F2)].
  split; try congruence; auto.
  exists (n1 ++ n2). split.
  - rewrite E2, E1. by rewrite app_assoc.
  - apply Forall_app. split; [done |].
    eapply Forall_impl; [exact F2 |]. intros e. apply fresh_call_anti.
    intros s Hs. destruct (Ps st1 !! s) as [p |] eqn:Hp; [| done].
    apply D1 in Hp. congruence.
Qed.

Lemma enter_extends s ge st : extends st (enter s ge st).
Proof.
  unfold enter. destruct (contains (Es st) s) eqn:E.
  - apply extends_refl.
  - apply contains_false in E.
    split; simpl; auto.
    + intros s' e He. rewrite lookup_insert_ne; [done | congruence].
    + exists []. split; [by rewrite app_nil_r | constructor].
Qed.

Lemma expand_eq b st :
  expand b st =
  (Ok (- (predict b).1)%R,
   upd_Ns <[array2string b := 0%nat]>
     (upd_Ps <[array2string b := (predict b).2]> (log (Predict b) st))).
Proof. reflexivity. Qed.

Lemma expand_extends b st :
  Ps st !! array2string b = None -> extends st (expand b st).2.
Proof.
  intros Hleaf. rewrite expand_eq. split; simpl; auto.
  - intros s p Hp. rewrite lookup_insert_ne; [done | congruence].
  - exists [Predict b]. split; [done |]. by repeat constructor.
Qed.

Lemma descend_extends s ge a st :
  0 <= a < action_dim -> extends st (descend s ge a st).
Proof.
  intros Ha. eapply extends_trans; [apply (enter_extends s ge) |].
  split; simpl; auto. exists [Step a]. split; [done |].
  constructor; [exact Ha | constructor].
Qed.

(** [backup] writes the three counting dictionaries only. *)
Lemma backup_frame s a v st :
  let st' := (backup s a v st).2 in
  game st' = game st /\ numMCTSSim st' = numMCTSSim st /\
  cpuct st' = cpuct st /\ Ps st' = Ps st /\ Es st' = Es st /\
  seed st' = seed st /\ calls st' = calls st.
Proof.
  unfold backup. unfold_monad. unfold subscript. cbn zeta.
  repeat (case_match; simplify_eq; cbn [fst snd] in * ); simpl; tauto.
Qed.

Lemma backup_extends s a v st : extends st (backup s a v st).2.
Proof.
  destruct (backup_frame s a v st) as (_ & A & B & C & D & _ & E).
  split; try congruence.
  exists []. rewrite E. split; [by rewrite app_nil_r | constructor].
Qed.

(** *** Selection *)

Lemma range_lookup (n : Z) (i : nat) :
  (i < Z.to_nat n)%nat -> range n !! i = Some (Z.of_nat i).
Proof.
  intros Hi. unfold range. rewrite list_lookup_fmap.
  rewrite lookup_seq_lt by done. reflexivity.
Qed.

Lemma elem_of_range (n a : Z) : a ∈ range n <-> 0 <= a < n.
Proof.
  unfold range. rewrite list_elem_of_fmap. split.
  - intros (i & -> & Hi). apply elem_of_seq in Hi. lia.
  - intros Ha. exists (Z.to_nat a). split; [lia |].
    apply elem_of_seq. lia.
Qed.

Lemma py_getitem_nth {A} (l : list A) (i : Z) (d : A) :
  0 <= i < Z.of_nat (length l) ->
  py_getitem l i = Ok (nth (Z.to_nat i) l d).
Proof.
  intros Hi. unfold py_getitem.
  destruct (Z.ltb_spec i 0) as [? | _]; [lia |].
  destruct (Z.ltb_spec i 0) as [? | _]; [lia |].
  destruct (l !! Z.to_nat i) as [x |] eqn:E.
  - f_equal. symmetry. by apply nth_lookup_Some with (d := d).
  - apply lookup_ge_None in E. lia.
Qed.

(** On well-formed statistics the loop body computes the score of the
    specification. *)
Lemma ucb_U st s a p :
  wf st -> Ps st !! s = Some p -> Z.of_nat (length p) = action_dim ->
  0 <= a < action_dim -> ucb st s a = Ok (U st s a).
Proof.
  intros Hwf Hp Hlen Ha. unfold ucb, U, subscript. rewrite Hp.
  destruct (wf_count _ Hwf s) as [n Hn]; [by eexists |].
  rewrite Hn. cbn [default].
  rewrite (py_getitem_nth p a 0%R) by lia.
  destruct (contains (Qsa st) (s, a)) eqn:E.
  - apply contains_true in E. pose proof E as [q Hq].
    apply (wf_edges _ Hwf) in E as [m Hm]. by rewrite Hq, Hm.
  - apply contains_false in E.
    destruct (Nsa st !! (s, a)) as [m |] eqn:Hm; [| done].
    assert (is_Some (Qsa st !! (s, a))) as [q Hq]
        by (apply (wf_edges _ Hwf); by eexists).
    congruence.
Qed.

Lemma gt_bound_true u c : gt_bound u (Finite c) = true <-> (c < u)%R.
Proof.
  unfold gt_bound. destruct (Rgt_dec u c) as [H | H]; unfold Rgt in H.
  - tauto.
  - split; [discriminate | tauto].
Qed.

Lemma gt_bound_false u c : gt_bound u (Finite c) = false <-> (u <= c)%R.
Proof.
  unfold gt_bound. destruct (Rgt_dec u c) as [H | H]; unfold Rgt in H.
  - split; [discriminate | lra].
  - split; [lra | done].
Qed.

(** The scan keeps the first action whose score is the largest: either no
    score beats the bound it started with, or the result sits at a
    position [i], beats everything before [i] strictly and nothing in the
    list beats it. *)
Lemma select_loop_max st s (f : Z -> R) (l : list Z) :
  (forall x, x ∈ l -> ucb st s x = Ok (f x)) ->
  forall cur best, exists a,
    select_loop st s l cur best = Ok a /\
    ((a = best /\ forall x, x ∈ l -> gt_bound (f x) cur = false) \/
     (exists i, l !! i = Some a /\ gt_bound (f a) cur = true /\
                (forall j x, (j < i)%nat -> l !! j = Some x ->
                             (f x < f a)%R) /\
                (forall x, x ∈ l -> (f x <= f a)%R))).
Proof.
  induction l as [| x l IH]; intros Hf cur best.
  - exists best. split; [done |]. left. split; [done |].
    intros x Hx. by apply elem_of_nil in Hx.
  - cbn [select_loop]. rewrite (Hf x) by apply list_elem_of_here.
    assert (Hf' : forall y, y ∈ l -> ucb st s y = Ok (f y))
      by (intros y Hy; apply Hf; by apply list_elem_of_further).
    destruct (gt_bound (f x) cur) eqn:Hgt.
    + destruct (IH Hf' (Finite (f x)) x) as (a & Hsel & Hcase).
      exists a. split; [done |]. right.
      destruct Hcase as [[-> Hall] | (i & Hi & Hgt' & Hbefore & Hmax)].
      * exists 0%nat. repeat split; [done | | ].
        -- intros j y Hj. lia.
        -- intros y Hy. apply elem_of_cons in Hy as [-> | Hy]; [lra |].
           apply gt_bound_false. by apply Hall.
      * apply gt_bound_true in Hgt'.
        exists (S i). repeat split; [done | | | ].
        -- destruct cur as [| c]; [done |]. apply gt_bound_true.
           apply gt_bound_true in Hgt. lra.
        -- intros [| j] y Hj Hy; simplify_eq/=; [done |].
           eapply Hbefore; [| done]. lia.
        -- intros y Hy. apply elem_of_cons in Hy as [-> | Hy]; [lra |].
           by apply Hmax.
    + destruct cur as [| c]; [done |]. apply gt_bound_false in Hgt.
      destruct (IH Hf' (Finite c) best) as (a & Hsel & Hcase).
      exists a. split; [done |].
      destruct Hcase as [[-> Hall] | (i & Hi & Hgt' & Hbefore & Hmax)].
      * left. split; [done |]. intros y Hy.
        apply elem_of_cons in Hy as [-> | Hy];
          [by apply gt_bound_false | by apply Hall].
      * right. pose proof Hgt' as Hlt. apply gt_bound_true in Hlt.
        exists (S i). repeat split; [done | done | | ].
        -- intros [| j] y Hj Hy; simplify_eq/=; [lra |].
           eapply Hbefore; [| done]. lia.
        -- intros y Hy. apply elem_of_cons in Hy as [-> | Hy]; [lra |].
           by apply Hmax.
Qed.

(** Whatever the statistics, a completed scan returns an action of the
    range: the first score always beats minus infinity. *)
Lemma select_loop_elem st s l cur best a :
  select_loop st s l cur best = Ok a -> a = best \/ a ∈ l.
Proof.
  revert cur best. induction l as [| x l IH]; intros cur best; cbn.
  - intros [= ->]. by left.
  - destruct (ucb st s x); [| done].
    destruct (gt_bound _ _); intros H; apply IH in H as [-> | H];
      auto using list_elem_of_here, list_elem_of_further.
Qed.

Lemma select_range st s a : select st s = Ok a -> 0 <= a < action_dim.
Proof.
  unfold select. change (range action_dim) with (0 :: [1; 2; 3; 4; 5]).
  assert (Hin : forall x, x ∈ [1; 2; 3; 4; 5] -> 0 <= x < action_dim)
    by (intros x Hx; apply (elem_of_range action_dim x);
        change (range action_dim) with (0 :: [1; 2; 3; 4; 5]);
        by apply list_elem_of_further).
  revert Hin. generalize [1; 2; 3; 4; 5]. intros l Hin.
  cbn [select_loop]. destruct (ucb st s 0); [| done]. cbn [gt_bound].
  intros H. apply select_loop_elem in H as [-> | H]; [done | by apply Hin].
Qed.

(** *** Cached flags and priors survive every call *)

Lemma search_extends limit b ge st : extends st (search limit b ge st).2.
Proof.
  revert b ge st. induction limit as [| limit IH]; intros b ge st.
  - apply extends_refl.
  - rewrite search_S. cbn zeta.
    pose proof (enter_extends (array2string b) ge st) as Henter.
    destruct (default ge (Es st !! array2string b)); [done |].
    destruct (contains (Ps st) (array2string b)) eqn:Hexp.
    + destruct (select st (array2string b)) as [a | e] eqn:Hsel; [| done].
      apply select_range in Hsel.
      pose proof (descend_extends (array2string b) ge a st Hsel) as Hdown.
      pose proof (IH (step (game st) a).2.1 (step (game st) a).2.2
                     (descend (array2string b) ge a st)) as Hrec.
      destruct (search limit _ _ _) as [[v | e] st2]; cbn [snd] in *.
      * pose proof (backup_extends (array2string b) a v st2) as Hback.
        assert (Hall : extends st (backup (array2string b) a v st2).2)
          by eauto using extends_trans.
        by destruct (backup _ _ _ _) as [[[] | e] st3].
      * eauto using extends_trans.
    + apply contains_false in Hexp.
      eapply extends_trans; [exact Henter |]. apply expand_extends.
      unfold enter. by destruct (contains (Es st) _).
Qed.

(** C5. The terminal flag of a state is taken from the argument
    [game_ended] of the call that sees the state first, and no later call
    changes a cached flag; on a state whose cached flag is true, [search]
    returns the value 1, not negated, at once and whatever flag the call
    passes, on the first visit as on the later ones. *)
Theorem terminal_flag_frozen limit b game_ended st :
  let s := array2string b in
  (Es st !! s = None ->
   Es (search (S limit) b game_ended st).2 !! s = Some game_ended) /\
  (forall limit' b' flag s' e,
      Es st !! s' = Some e ->
      Es (search limit' b' flag st).2 !! s' = Some e) /\
  (Es st !! s = Some true ->
   search (S limit) b game_ended st = (Ok 1%R, st)) /\
  (Es st !! s = None ->
   search (S limit) b true st = (Ok 1%R, upd_Es <[s := true]> st)).
Proof.
  cbn zeta. repeat split.
  - intros Hnew.
    assert (Es (enter (array2string b) game_ended st) !! array2string b
            = Some game_ended) as Hrec by (by rewrite enter_Es, Hnew).
    pose proof (search_extends limit) as Hext.
    rewrite search_S. cbn zeta. rewrite Hnew. cbn [default].
    destruct game_ended; [done |].
    destruct (contains (Ps st) (array2string b)).
    + destruct (select st (array2string b)) as [a | e] eqn:Hsel; [| done].
      apply select_range in Hsel.
      specialize (Hext (step (game st) a).2.1 (step (game st) a).2.2
                       (descend (array2string b) false a st)).
      assert (Es (descend (array2string b) false a st) !! array2string b
              = Some false) as Hdown by done.
      apply (ext_Es _ _ _ Hext) in Hdown.
      destruct (search limit _ _ _) as [[v | e] st2]; cbn [snd] in *;
        [| done].
      pose proof (backup_frame (array2string b) a v st2) as Hframe.
      cbn zeta in Hframe. destruct Hframe as (_ & _ & _ & _ & HEs & _).
      destruct (backup _ _ _ _) as [[[] | e] st3]; cbn [snd] in *;
        by rewrite HEs.
    + by rewrite expand_eq.
  - intros limit' b' flag s' e He.
    by apply (ext_Es _ _ _ (search_extends limit' b' flag st)).
  - intros Hterm. rewrite search_S. cbn zeta. rewrite Hterm. cbn [default].
    unfold enter. assert (contains (Es st) (array2string b) = true) as ->
        by (apply contains_true; by eexists). done.
  - intros Hnew. rewrite search_S. cbn zeta. rewrite Hnew. cbn [default].
    unfold enter. by apply contains_false in Hnew as ->.
Qed.

(** C4, amended. For a state [s] without a prior that is not terminal
    (neither by its cached flag nor, when it has none, by the flag of the
    call), [search] queries the estimator once, stores the prior it
    returns, sets [Ns[s]] to 0 and returns the negated value, without
    selecting an action, stepping the environment or recursing. Once a
    prior is stored no call overwrites it, and no later call queries the
    estimator on that state. *)
Theorem leaf_expansion_once limit b game_ended st :
  let s := array2string b in
  (Ps st !! s = None -> default game_ended (Es st !! s) = false ->
   exists st',
     search (S limit) b game_ended st = (Ok (- (predict b).1)%R, st') /\
     Ps st' !! s = Some (predict b).2 /\ Ns st' !! s = Some 0%nat /\
     calls st' = calls st ++ [Predict b] /\
     game st' = game st /\ Qsa st' = Qsa st /\ Nsa st' = Nsa st) /\
  (forall p limit' b' flag,
      Ps st !! s = Some p ->
      let st'' := (search limit' b' flag st).2 in
      Ps st'' !! s = Some p /\
      exists new, calls st'' = calls st ++ new /\
                  forall b'', Predict b'' ∈ new -> array2string b'' <> s).
Proof.
  cbn zeta. split.
  - intros Hleaf Hlive. rewrite search_S. cbn zeta. rewrite Hlive.
    apply contains_false in Hleaf as Hno. rewrite Hno. rewrite expand_eq.
    eexists. split; [reflexivity |].
    assert (forall st0, game (enter (array2string b) game_ended st0) = game st0
                        /\ Qsa (enter (array2string b) game_ended st0) = Qsa st0
                        /\ Nsa (enter (array2string b) game_ended st0) = Nsa st0
                        /\ calls (enter (array2string b) game_ended st0)
                           = calls st0) as Hsame
        by (intros st0; unfold enter; by destruct (contains (Es st0) _)).
    destruct (Hsame st) as (Hg & HQ & HN & Hc).
    cbn. rewrite Hg, HQ, HN, Hc.
    repeat split; apply lookup_insert_eq.
  - intros p limit' b' flag Hp.
    destruct (search_extends limit' b' flag st) as [_ _ _ HPs (new & Hnew & Hall)].
    split; [by apply HPs |].
    exists new. split; [done |]. intros b'' Hin Heq.
    rewrite Forall_forall in Hall. apply Hall in Hin. simpl in Hin.
    rewrite Heq in Hin. congruence.
Qed.

(** *** Well-formed statistics are preserved *)

Lemma wf_same st st' :
  Qsa st' = Qsa st -> Nsa st' = Nsa st -> Ns st' = Ns st ->
  Ps st' = Ps st -> wf st -> wf st'.
Proof.
  intros HQ HN HNs HP [A B C D].
  split; unfold edge_visits in *; rewrite ?HQ, ?HN, ?HNs, ?HP; auto.
Qed.

Lemma wf_init (g : env) sims c (r : rng) : wf (init g sims c r : mcts).
Proof.
  split; simpl.
  - intros k. by rewrite !lookup_empty.
  - intros s. rewrite lookup_empty. by intros [? ?].
  - intros s a. rewrite lookup_empty. by intros [? ?].
  - intros s n. by rewrite lookup_empty.
Qed.

Lemma wf_enter s ge st : wf st -> wf (enter s ge st).
Proof.
  apply wf_same; unfold enter; by destruct (contains (Es st) s).
Qed.

Lemma wf_descend s ge a st : wf st -> wf (descend s ge a st).
Proof.
  intros H. apply (wf_same (enter s ge st)); try done. by apply wf_enter.
Qed.

Lemma NoDup_range n : NoDup (range n).
Proof.
  unfold range. apply NoDup_fmap_2; [apply _ | apply NoDup_seq].
Qed.

(** Raising one summand by one raises the sum by one. *)
Lemma sum_list_bump (f g : Z -> nat) (l : list Z) a :
  NoDup l -> a ∈ l -> g a = S (f a) ->
  (forall x, x <> a -> g x = f x) ->
  sum_list (map g l) = S (sum_list (map f l)).
Proof.
  intros Hnd Hin Ha Hother. induction l as [| x l IH]; [by apply elem_of_nil in Hin |].
  apply NoDup_cons in Hnd as [Hx Hnd]. cbn [map sum_list].
  destruct (decide (x = a)) as [-> | Hne].
  - rewrite Ha. assert (map g l = map f l) as ->; [| done].
    apply map_ext_in. intros y Hy. apply Hother. intros ->.
    apply Hx. by apply list_elem_of_In.
  - rewrite (Hother x Hne). apply elem_of_cons in Hin as [-> | Hin]; [done |].
    rewrite (IH Hnd Hin). lia.
Qed.

Lemma sum_list_same (f g : Z -> nat) (l : list Z) :
  (forall x, g x = f x) -> sum_list (map g l) = sum_list (map f l).
Proof. intros H. f_equal. apply map_ext. auto. Qed.

Lemma wf_expand b st :
  Ps st !! array2string b = None -> wf st -> wf (expand b st).2.
Proof.
  intros Hleaf [A B C D]. rewrite expand_eq. split; cbn.
  - exact A.
  - intros s. destruct (decide (array2string b = s)) as [<- | Hne].
    + intros _. rewrite lookup_insert_eq. by eexists.
    + rewrite !lookup_insert_ne by done. apply B.
  - intros s a Hedge. destruct (C s a Hedge) as [HP Ha]. split; [| done].
    destruct (decide (array2string b = s)) as [<- | Hne].
    + rewrite lookup_insert_eq. by eexists.
    + by rewrite lookup_insert_ne.
  - intros s n. unfold edge_visits. cbn.
    destruct (decide (array2string b = s)) as [<- | Hne].
    + rewrite lookup_insert_eq. intros [= <-].
      assert (forall a, Nsa st !! (array2string b, a) = None) as Hnone.
      { intros a. destruct (Nsa st !! _) eqn:E; [| done].
        destruct (C (array2string b) a) as [[p Hp] _]; [by eexists |].
        congruence. }
      induction (range action_dim) as [| x l IH]; [done |].
      cbn. by rewrite Hnone.
    + rewrite lookup_insert_ne by done. apply D.
Qed.

(** When the edge dictionaries agree on the key and the state has a
    visit count, [backup] raises nothing. *)
Lemma backup_ok s a v st :
  (is_Some (Qsa st !! (s, a)) <-> is_Some (Nsa st !! (s, a))) ->
  is_Some (Ns st !! s) ->
  backup s a v st = (Ok tt, backed_up s a v st).
Proof.
  intros Hedge [k Hk]. unfold backup, backed_up. unfold_monad.
  unfold subscript. rewrite Hk. cbn [default].
  destruct (contains (Qsa st) (s, a)) eqn:E.
  - apply contains_true in E. pose proof E as [q Hq].
    apply Hedge in E as [n Hn].
    do 3 (rewrite ?Hn, ?Hq, ?Hk;
          cbn [Nsa Ns Qsa upd_Qsa upd_Nsa upd_Ns default]).
    reflexivity.
  - apply contains_false in E. rewrite E.
    cbn [Nsa Ns Qsa upd_Qsa upd_Nsa upd_Ns default]. by rewrite Hk.
Qed.

Lemma wf_backed_up s a v st :
  is_Some (Ps st !! s) -> 0 <= a < action_dim -> wf st ->
  wf (backed_up s a v st).
Proof.
  intros HP Ha Hwf. pose proof Hwf as [A B C D].
  assert (exists q' m,
             Qsa (backed_up s a v st) = <[(s, a) := q']> (Qsa st) /\
             Nsa (backed_up s a v st) = <[(s, a) := S m]> (Nsa st) /\
             default 0%nat (Nsa st !! (s, a)) = m) as (q' & m & HQ & HN & Hm).
  { unfold backed_up.
    destruct (Qsa st !! (s, a)) as [q |] eqn:Hq.
    - destruct (A (s, a)) as [[n Hn] _]; [by eexists |]. rewrite Hn.
      exists ((INR n * q + v) / (INR n + 1))%R, n. cbn.
      by replace (n + 1)%nat with (S n) by lia.
    - assert (Nsa st !! (s, a) = None) as Hn.
      { destruct (Nsa st !! (s, a)) eqn:E; [| done].
        destruct (A (s, a)) as [_ [q Hq']]; [by eexists | congruence]. }
      rewrite Hn. by exists v, 0%nat. }
  assert (Ns (backed_up s a v st)
          = <[s := S (default 0%nat (Ns st !! s))]> (Ns st)) as HNs.
  { unfold backed_up.
    replace (default 0%nat (Ns st !! s) + 1)%nat
      with (S (default 0%nat (Ns st !! s))) by lia.
    by destruct (Qsa st !! (s, a)), (Nsa st !! (s, a)). }
  assert (Ps (backed_up s a v st) = Ps st) as HPs.
  { unfold backed_up. by destruct (Qsa st !! (s, a)), (Nsa st !! (s, a)). }
  split.
  - intros k. rewrite HQ, HN.
    destruct (decide ((s, a) = k)) as [<- | Hne].
    + rewrite !lookup_insert_eq. split; by eexists.
    + rewrite !lookup_insert_ne by done. apply A.
  - intros s'. rewrite HPs, HNs. intros H. apply B in H.
    destruct (decide (s = s')) as [<- | Hne].
    + rewrite lookup_insert_eq. by eexists.
    + by rewrite lookup_insert_ne.
  - intros s' a'. rewrite HPs, HN.
    destruct (decide ((s, a) = (s', a'))) as [[= <- <-] | Hne].
    + done.
    + rewrite lookup_insert_ne by done. apply C.
  - intros s' n. rewrite HNs. unfold edge_visits. rewrite HN.
    destruct (decide (s = s')) as [<- | Hne].
    + rewrite lookup_insert_eq. intros [= <-].
      destruct (B s HP) as [k Hk]. rewrite Hk. cbn [default].
      rewrite (D s k Hk). unfold edge_visits. symmetry.
      apply (sum_list_bump _ _ _ a).
      * apply NoDup_range.
      * by apply elem_of_range.
      * rewrite lookup_insert_eq. cbn. by rewrite Hm.
      * intros x Hx. rewrite lookup_insert_ne; [done | congruence].
    + rewrite lookup_insert_ne by done. intros Hn. rewrite (D s' n Hn).
      unfold edge_visits. symmetry. apply sum_list_same.
      intros x. rewrite lookup_insert_ne; [done | congruence].
Qed.

Lemma search_wf limit b ge st : wf st -> wf (search limit b ge st).2.
Proof.
  revert b ge st. induction limit as [| limit IH]; intros b ge st Hwf.
  - done.
  - rewrite search_S. cbn zeta.
    pose proof (wf_enter (array2string b) ge st Hwf) as Henter.
    destruct (default ge (Es st !! array2string b)); [done |].
    destruct (contains (Ps st) (array2string b)) eqn:Hexp.
    + destruct (select st (array2string b)) as [a | e] eqn:Hsel; [| done].
      apply select_range in Hsel. apply contains_true in Hexp as [p Hp].
      pose proof (descend_extends (array2string b) ge a st Hsel) as Hdown.
      pose proof (search_extends limit (step (game st) a).2.1
                    (step (game st) a).2.2
                    (descend (array2string b) ge a st)) as Hext.
      pose proof (IH (step (game st) a).2.1 (step (game st) a).2.2
                     (descend (array2string b) ge a st)
                     (wf_descend _ _ _ _ Hwf)) as Hrec.
      destruct (search limit _ _ _) as [[v | e] st2]; cbn [snd] in *;
        [| done].
      assert (Ps st2 !! array2string b = Some p) as Hp2
          by (apply (ext_Ps _ _ _ Hext), (ext_Ps _ _ _ Hdown), Hp).
      rewrite backup_ok;
        [| apply (wf_edges _ Hrec) | apply (wf_count _ Hrec); by eexists].
      apply wf_backed_up; [by eexists | done | done].
    + apply contains_false in Hexp. apply wf_expand; [| done].
      unfold enter. by destruct (contains (Es st) _).
Qed.

(** *** [getActionProb] changes the statistics through [search] only *)

Lemma simulations_S limit n b st :
  simulations limit (S n) b st =
  match search limit b false st with
  | (Ok _, st') => simulations limit n b st'
  | (Raise e, st') => (Raise e, st')
  end.
Proof. reflexivity. Qed.

Lemma simulations_wf limit n b st :
  wf st -> wf (simulations limit n b st).2.
Proof.
  revert st. induction n as [| n IH]; intros st Hwf; [done |].
  rewrite simulations_S. pose proof (search_wf limit b false st Hwf).
  destruct (search limit b false st) as [[v | e] st']; [by apply IH | done].
Qed.

Lemma getActionProb_frame limit b temp st :
  let st1 := (simulations limit (numMCTSSim st) b st).2 in
  let st' := (getActionProb limit b temp st).2 in
  game st' = game st1 /\ numMCTSSim st' = numMCTSSim st1 /\
  cpuct st' = cpuct st1 /\ Qsa st' = Qsa st1 /\ Nsa st' = Nsa st1 /\
  Ns st' = Ns st1 /\ Ps st' = Ps st1 /\ Es st' = Es st1 /\
  calls st' = calls st1.
Proof.
  unfold getActionProb, random_choice. unfold_monad. cbn zeta.
  destruct (simulations limit (numMCTSSim st) b st) as [[[] | e] st1];
    cbn [fst snd]; [| tauto].
  repeat (case_match; cbn [fst snd]); simplify_eq; cbn; tauto.
Qed.

Lemma reachable_wf st : reachable st -> wf st.
Proof.
  induction 1 as [g sims c r | st limit b ge _ IH | st limit b temp _ IH
                  | st g _ IH].
  - apply wf_init.
  - by apply search_wf.
  - destruct (getActionProb_frame limit b temp st)
      as (_ & _ & _ & HQ & HN & HNs & HP & _).
    eapply wf_same; [exact HQ | exact HN | exact HNs | exact HP |].
    by apply simulations_wf.
  - by apply (wf_same st).
Qed.

(** C6. After any sequence of calls of [search] and [getActionProb] on a
    new engine, every expanded state [s] has [Ns[s]] equal to the sum over
    the actions of the range of [Nsa[(s, a)]], absent edges counting 0;
    in particular the states from which an action has been taken. No edge
    leaves a state through an action outside the range. *)
Theorem count_conservation st s :
  reachable st -> is_Some (Ps st !! s) ->
  Ns st !! s = Some (edge_visits st s) /\
  forall a, is_Some (Nsa st !! (s, a)) -> 0 <= a < action_dim.
Proof.
  intros Hreach HP. apply reachable_wf in Hreach as Hwf.
  split.
  - destruct (wf_count _ Hwf s HP) as [n Hn].
    by rewrite Hn, (wf_sum _ Hwf s n Hn).
  - intros a Ha. by apply (wf_source _ Hwf s a).
Qed.

(** *** Stored values stay between -1 and 1 *)

Lemma mean_bound (n : nat) (q v : R) :
  (-1 <= q <= 1)%R -> (-1 <= v <= 1)%R ->
  (-1 <= (INR n * q + v) / (INR n + 1) <= 1)%R.
Proof.
  intros Hq Hv. pose proof (pos_INR n) as Hn.
  assert (0 < INR n + 1)%R as Hd by lra.
  assert (- (INR n + 1) <= INR n * q + v <= INR n + 1)%R as Hnum by nra.
  split.
  - apply Rmult_le_reg_r with (r := (INR n + 1)%R); [done |].
    unfold Rdiv. rewrite Rmult_assoc, Rinv_l by lra. lra.
  - apply Rmult_le_reg_r with (r := (INR n + 1)%R); [done |].
    unfold Rdiv. rewrite Rmult_assoc, Rinv_l by lra. lra.
Qed.

Lemma bounded_insert (k : string * Z) (q : R) (m : gmap (string * Z) R) :
  (forall k' q', m !! k' = Some q' -> (-1 <= q' <= 1)%R) ->
  (-1 <= q <= 1)%R ->
  forall k' q', <[k := q]> m !! k' = Some q' -> (-1 <= q' <= 1)%R.
Proof.
  intros Hm Hq k' q'. destruct (decide (k = k')) as [<- | Hne].
  - rewrite lookup_insert_eq. by intros [= <-].
  - rewrite lookup_insert_ne by done. apply Hm.
Qed.

(** Whether it completes or raises, [backup] keeps the bound. *)
Lemma backup_bounded s a v st :
  bounded st -> (-1 <= v <= 1)%R -> bounded (backup s a v st).2.
Proof.
  intros Hb Hv. unfold bounded, backup. unfold_monad. unfold subscript.
  destruct (contains (Qsa st) (s, a)); cbn [fst snd].
  - destruct (Nsa st !! (s, a)) as [n |] eqn:Hn; cbn [fst snd]; [| done].
    destruct (Qsa st !! (s, a)) as [q |] eqn:Hq; cbn [fst snd]; [| done].
    cbn [Nsa upd_Qsa]. rewrite Hn. cbn [fst snd Ns upd_Nsa upd_Qsa].
    destruct (Ns st !! s); cbn [snd Qsa upd_Ns upd_Nsa upd_Qsa];
      apply bounded_insert; try done; apply mean_bound; eauto.
  - cbn [Ns upd_Nsa upd_Qsa].
    destruct (Ns st !! s); cbn [snd Qsa upd_Ns upd_Nsa upd_Qsa];
      by apply bounded_insert.
Qed.

Lemma search_bounded limit b ge st :
  (forall b', (-1 <= (predict b').1 <= 1)%R) ->
  bounded st ->
  bounded (search limit b ge st).2 /\
  forall v, (search limit b ge st).1 = Ok v -> (-1 <= v <= 1)%R.
Proof.
  intros Hpredict. revert b ge st.
  induction limit as [| limit IH]; intros b ge st Hb.
  - done.
  - rewrite search_S. cbn zeta.
    assert (bounded (enter (array2string b) ge st)) as Henter
        by (unfold enter; by destruct (contains (Es st) _)).
    destruct (default ge (Es st !! array2string b)).
    { split; [done |]. intros v [= <-]. lra. }
    destruct (contains (Ps st) (array2string b)).
    + destruct (select st (array2string b)) as [a | e]; [| done].
      destruct (IH (step (game st) a).2.1 (step (game st) a).2.2
                   (descend (array2string b) ge a st)) as [Hb2 Hv2];
        [done |].
      destruct (search limit _ _ _) as [[v | e] st2]; cbn [fst snd] in *;
        [| done].
      specialize (Hv2 v eq_refl).
      pose proof (backup_bounded (array2string b) a v st2 Hb2 Hv2) as Hb3.
      destruct (backup _ _ _ _) as [[[] | e] st3]; cbn [fst snd] in *;
        [| done].
      split; [done |]. intros v' [= <-]. lra.
    + rewrite expand_eq. split.
      * exact Henter.
      * intros v [= <-]. specialize (Hpredict b). lra.
Qed.

Lemma simulations_bounded limit n b st :
  (forall b', (-1 <= (predict b').1 <= 1)%R) ->
  bounded st -> bounded (simulations limit n b st).2.
Proof.
  intros Hpredict. revert st. induction n as [| n IH]; intros st Hb; [done |].
  rewrite simulations_S.
  destruct (search_bounded limit b false st Hpredict Hb) as [Hb' _].
  destruct (search limit b false st) as [[v | e] st']; [by apply IH | done].
Qed.

(** C7. If every value the estimator returns lies in [-1, 1], then after
    any sequence of calls on a new engine every stored [Qsa[(s, a)]] lies
    in [-1, 1]; the value returned for a terminal state is the fixed 1. *)
Theorem value_bound st :
  (forall b, (-1 <= (predict b).1 <= 1)%R) ->
  reachable st ->
  forall s a q, Qsa st !! (s, a) = Some q -> (-1 <= q <= 1)%R.
Proof.
  intros Hpredict Hreach.
  enough (bounded st) as Hb by (intros s a q; apply Hb).
  induction Hreach as [g sims c r | st limit b ge _ IH | st limit b temp _ IH
                       | st g _ IH].
  - intros k q. cbn. by rewrite lookup_empty.
  - by apply search_bounded.
  - destruct (getActionProb_frame limit b temp st)
      as (_ & _ & _ & HQ & _).
    unfold bounded. rewrite HQ. by apply simulations_bounded.
  - exact IH.
Qed.

(** *** Selection and backup inside [search] *)

(** The call on an expanded, live state: select, step, recurse, back up. *)
Lemma search_inner limit b ge st a :
  let s := array2string b in
  default ge (Es st !! s) = false -> is_Some (Ps st !! s) ->
  select st s = Ok a ->
  search (S limit) b ge st =
  match search limit (step (game st) a).2.1 (step (game st) a).2.2
               (descend s ge a st) with
  | (Raise e, st2) => (Raise e, st2)
  | (Ok v, st2) =>
      match backup s a v st2 with
      | (Raise e, st3) => (Raise e, st3)
      | (Ok _, st3) => (Ok (- v)%R, st3)
      end
  end.
Proof.
  cbn zeta. intros Hlive HP Hsel. rewrite search_S. cbn zeta.
  rewrite Hlive. apply contains_true in HP as ->. by rewrite Hsel.
Qed.

Lemma descend_calls s ge a st :
  calls (descend s ge a st) = calls st ++ [Step a].
Proof. unfold descend, enter. by destruct (contains (Es st) s). Qed.

(** C2. On an expanded state that is not terminal, whose prior has one
    entry per action, [search] takes the action [a] that maximises the
    score [U]: the mean value plus [C * P * sqrt(Ns) / (1 + Nsa)] on an
    existing edge, [C * P * sqrt(Ns + 1e-8)] otherwise. The scan is
    strict and goes up the action indices, so every action before [a]
    scores strictly less and a later action with an equal score does not
    replace [a]. *)
Theorem selection_maximises limit b game_ended st p :
  let s := array2string b in
  reachable st ->
  Ps st !! s = Some p -> Z.of_nat (length p) = action_dim ->
  default game_ended (Es st !! s) = false ->
  exists a,
    select st s = Ok a /\ 0 <= a < action_dim /\
    (forall a', 0 <= a' < action_dim -> (U st s a' <= U st s a)%R) /\
    (forall a', 0 <= a' < a -> (U st s a' < U st s a)%R) /\
    exists rest,
      calls (search (S limit) b game_ended st).2
      = calls st ++ Step a :: rest.
Proof.
  cbn zeta. intros Hreach Hp Hlen Hlive.
  apply reachable_wf in Hreach as Hwf.
  destruct (select_loop_max st (array2string b) (U st (array2string b))
              (range action_dim)) with (cur := NegInf) (best := -1)
    as (a & Hsel & Hcase).
  { intros x Hx. apply elem_of_range in Hx. by apply (ucb_U st _ x p). }
  destruct Hcase as [[_ Hnone] | (i & Hi & _ & Hbefore & Hmax)].
  { specialize (Hnone 0). discriminate Hnone. by apply elem_of_range. }
  assert (0 <= a < action_dim) as Ha
      by (apply elem_of_range, list_elem_of_lookup; eauto).
  assert (a = Z.of_nat i) as Hai.
  { apply lookup_lt_Some in Hi as Hlt. unfold range in Hlt.
    rewrite length_map, length_seq in Hlt.
    rewrite range_lookup in Hi by done. congruence. }
  exists a. repeat split; try done; try lia.
  - intros a' Ha'. apply Hmax. by apply elem_of_range.
  - intros a' Ha'. apply (Hbefore (Z.to_nat a')); [lia |].
    rewrite range_lookup by (unfold action_dim in *; lia). f_equal. lia.
  - fold (select st (array2string b)) in Hsel.
    rewrite (search_inner limit b game_ended st a) by (eauto || done).
    destruct (search_extends limit (step (game st) a).2.1
                (step (game st) a).2.2
                (descend (array2string b) game_ended a st))
      as [_ _ _ _ (new & Hnew & _)].
    rewrite descend_calls in Hnew.
    destruct (search limit _ _ _) as [[v | e] st2]; cbn [snd] in *.
    + destruct (backup_frame (array2string b) a v st2)
        as (_ & _ & _ & _ & _ & _ & Hc). cbn zeta in Hc.
      exists new.
      destruct (backup _ _ _ _) as [[[] | e] st3]; cbn [snd] in *;
        by rewrite Hc, Hnew, <- app_assoc.
    + exists new. by rewrite Hnew, <- app_assoc.
Qed.

Lemma select_ok st s p :
  wf st -> Ps st !! s = Some p -> Z.of_nat (length p) = action_dim ->
  exists a, select st s = Ok a /\ 0 <= a < action_dim.
Proof.
  intros Hwf Hp Hlen.
  destruct (select_loop_max st s (U st s) (range action_dim))
    with (cur := NegInf) (best := -1) as (a & Hsel & _).
  { intros x Hx. apply elem_of_range in Hx. by apply (ucb_U st _ x p). }
  exists a. split; [done |]. by apply (select_range st s).
Qed.


(** C3. When the recursive call on the selected action [a] of state [s]
    returns [v], [search] replaces [Qsa[(s, a)]] by the running mean
    [(Nsa * Qsa + v) / (Nsa + 1)] and adds 1 to [Nsa[(s, a)]] if the edge
    exists, stores [Qsa[(s, a)] = v] and [Nsa[(s, a)] = 1] if it does
    not, adds 1 to [Ns[s]], changes nothing else and returns [-v]. *)
Theorem backup_running_mean limit b game_ended st a v st2 :
  let s := array2string b in
  reachable st ->
  default game_ended (Es st !! s) = false -> is_Some (Ps st !! s) ->
  select st s = Ok a ->
  search limit (step (game st) a).2.1 (step (game st) a).2.2
         (descend s game_ended a st) = (Ok v, st2) ->
  exists st3 k,
    search (S limit) b game_ended st = (Ok (- v)%R, st3) /\
    st3 = backed_up s a v st2 /\
    (forall q n, Qsa st2 !! (s, a) = Some q -> Nsa st2 !! (s, a) = Some n ->
                 Qsa st3 !! (s, a)
                 = Some ((INR n * q + v) / (INR n + 1))%R /\
                 Nsa st3 !! (s, a) = Some (n + 1)%nat) /\
    (Nsa st2 !! (s, a) = None ->
     Qsa st3 !! (s, a) = Some v /\ Nsa st3 !! (s, a) = Some 1%nat) /\
    Ns st2 !! s = Some k /\ Ns st3 !! s = Some (k + 1)%nat.
Proof.
  cbn zeta. intros Hreach Hlive HP Hsel Hrec.
  apply reachable_wf in Hreach as Hwf.
  pose proof (select_range _ _ _ Hsel) as Ha.
  pose proof (search_wf limit (step (game st) a).2.1 (step (game st) a).2.2
                _ (wf_descend (array2string b) game_ended a st Hwf)) as Hwf2.
  pose proof (search_extends limit (step (game st) a).2.1
                (step (game st) a).2.2
                (descend (array2string b) game_ended a st)) as Hext.
  rewrite Hrec in Hwf2, Hext. cbn [snd] in *.
  destruct HP as [p Hp].
  assert (Ps st2 !! array2string b = Some p) as Hp2.
  { apply (ext_Ps _ _ _ Hext).
    by apply (ext_Ps _ _ _ (descend_extends _ game_ended a st Ha)). }
  destruct (wf_count _ Hwf2 (array2string b)) as [k Hk]; [by eexists |].
  exists (backed_up (array2string b) a v st2), k.
  split.
  { rewrite (search_inner limit b game_ended st a) by (eauto || done).
    rewrite Hrec. rewrite backup_ok; [done | | by eexists].
    apply (wf_edges _ Hwf2). }
  split; [done |]. split.
  { intros q n Hq Hn. unfold backed_up. rewrite Hq, Hn. cbn.
    split; apply lookup_insert_eq. }
  split.
  { intros Hn. unfold backed_up. rewrite Hn.
    destruct (Qsa st2 !! (array2string b, a)); cbn;
      split; apply lookup_insert_eq. }
  split; [done |]. unfold backed_up. rewrite Hk.
  destruct (Qsa st2 !! (array2string b, a)),
    (Nsa st2 !! (array2string b, a)); cbn; apply lookup_insert_eq.
Qed.

(** *** When [search] returns *)

(** A call that returns has walked to a terminal or unexpanded state
    within its recursion limit. *)
Lemma search_ok_ends limit b ge st v st' :
  search limit b ge st = (Ok v, st') ->
  exists d, (d < limit)%nat /\ ends_after d b ge st.
Proof.
  revert b ge st v st'.
  induction limit as [| limit IH]; intros b ge st v st'; [done |].
  rewrite search_S. cbn zeta.
  destruct (default ge (Es st !! array2string b)) eqn:Hterm.
  { intros _. exists 0%nat. split; [lia |]. by left. }
  destruct (contains (Ps st) (array2string b)) eqn:Hexp.
  - apply contains_true in Hexp.
    destruct (select st (array2string b)) as [a | e] eqn:Hsel; [| done].
    destruct (search limit _ _ _) as [[v2 | e] st2] eqn:Hrec; [| done].
    intros _. apply IH in Hrec as (d & Hd & Hends).
    exists (S d). split; [lia |]. cbn [MCTS.ends_after]. cbn zeta.
    repeat split; [done | done |]. exists a. by split.
  - apply contains_false in Hexp. intros _. exists 0%nat.
    split; [lia |]. by right.
Qed.

(** On well-formed statistics, a walk that ends within the limit makes
    the call return. *)
Lemma ends_search_ok d limit b ge st :
  wf st -> (d < limit)%nat -> ends_after d b ge st ->
  exists v st', search limit b ge st = (Ok v, st').
Proof.
  revert limit b ge st.
  induction d as [| d IH]; intros [| limit] b ge st Hwf Hd; try lia.
  - cbn [MCTS.ends_after]. cbn zeta. intros Hend. rewrite search_S.
    cbn zeta. destruct (default ge (Es st !! array2string b)); [by eauto |].
    destruct Hend as [? | Hleaf]; [done |].
    apply contains_false in Hleaf as ->. rewrite expand_eq. eauto.
  - cbn [MCTS.ends_after]. cbn zeta.
    intros (Hlive & [p Hp] & a & Hsel & Hends).
    rewrite (search_inner limit b ge st a) by (eauto || done).
    pose proof (select_range _ _ _ Hsel) as Ha.
    pose proof (wf_descend (array2string b) ge a st Hwf) as Hwf1.
    destruct (IH limit _ _ _ Hwf1 ltac:(lia) Hends) as (v & st2 & Hrec).
    pose proof (search_wf limit (step (game st) a).2.1
                  (step (game st) a).2.2 _ Hwf1) as Hwf2.
    pose proof (search_extends limit (step (game st) a).2.1
                  (step (game st) a).2.2
                  (descend (array2string b) ge a st)) as Hext.
    rewrite Hrec in Hwf2, Hext |- *. cbn [snd] in *.
    rewrite backup_ok; [by eauto | apply (wf_edges _ Hwf2) |].
    apply (wf_count _ Hwf2). exists p.
    apply (ext_Ps _ _ _ Hext).
    by apply (ext_Ps _ _ _ (descend_extends _ ge a st Ha)).
Qed.

(** C9, amended. A call of [search] on an engine reached from a new one
    returns exactly when its walk through the selected actions reaches a
    terminal or an unexpanded state in fewer steps than the recursion
    limit allows. Nothing bounds the walk otherwise: in an environment
    that leads back to expanded states the call does not return. *)
Theorem search_returns_iff limit b game_ended st :
  reachable st ->
  (exists v st', search limit b game_ended st = (Ok v, st')) <->
  (exists d, (d < limit)%nat /\ ends_after d b game_ended st).
Proof.
  intros Hreach. apply reachable_wf in Hreach. split.
  - intros (v & st' & Hret). by apply search_ok_ends in Hret.
  - intros (d & Hd & Hends). by apply (ends_search_ok d).
Qed.

(** *** The two-simulation scenario *)

Lemma search_leaf limit b ge st :
  Ps st !! array2string b = None ->
  default ge (Es st !! array2string b) = false ->
  search (S limit) b ge st = expand b (enter (array2string b) ge st).
Proof.
  intros Hleaf Hlive. rewrite search_S. cbn zeta. rewrite Hlive.
  by apply contains_false in Hleaf as ->.
Qed.

Lemma enter_seen s ge st e : Es st !! s = Some e -> enter s ge st = st.
Proof.
  intros He. unfold enter.
  assert (contains (Es st) s = true) as ->; [| done].
  apply contains_true. by eexists.
Qed.

Lemma enter_new s ge st :
  Es st !! s = None -> enter s ge st = upd_Es <[s := ge]> st.
Proof. intros He. unfold enter. by apply contains_false in He as ->. Qed.

(** Equal scores never displace the action that holds the maximum. *)
Lemma select_loop_const st s (u : R) (l : list Z) best :
  (forall x, x ∈ l -> ucb st s x = Ok u) ->
  select_loop st s l (Finite u) best = Ok best.
Proof.
  induction l as [| x l IH]; intros Hu; [done |].
  cbn [select_loop]. rewrite (Hu x) by apply list_elem_of_here.
  assert (gt_bound u (Finite u) = false) as -> by (apply gt_bound_false; lra).
  apply IH. intros y Hy. apply Hu. by apply list_elem_of_further.
Qed.

Lemma select_loop_head st s x (l : list Z) best :
  select_loop st s (x :: l) NegInf best =
  match ucb st s x with
  | Ok u => select_loop st s l (Finite u) x
  | Raise e => Raise e
  end.
Proof. reflexivity. Qed.

Lemma select_all_equal st s (u : R) :
  (forall a, 0 <= a < action_dim -> ucb st s a = Ok u) ->
  select st s = Ok 0.
Proof.
  intros Hu. unfold select.
  change (range action_dim) with (0 :: [1; 2; 3; 4; 5]).
  rewrite select_loop_head, (Hu 0) by done.
  apply select_loop_const. intros x Hx. apply Hu.
  apply (elem_of_range action_dim x).
  change (range action_dim) with (0 :: [1; 2; 3; 4; 5]).
  by apply list_elem_of_further.
Qed.

Section TwoSimulations.

Variables (g : env) (C : R) (r : rng) (root : board).

Local Abbreviation s := (array2string root).
Local Abbreviation prior :=
  [1 / 6; 1 / 6; 1 / 6; 1 / 6; 1 / 6; 1 / 6]%R.
Local Abbreviation child := ((step g 0).2.1).

(** The estimator always returns 0.5 and the uniform prior; the
    environment never reports termination; the first move from the
    root leads to a new state; a choice among the single candidate 0
    is 0. *)
Hypothesis Hpredict : forall b, predict b = ((1 / 2)%R, prior).
Hypothesis Hdone : forall g' a, (step g' a).2.2 = false.
Hypothesis Hchild : array2string child <> s.

(** The engine after the first simulation, and after the call on the
    child during the second. *)
Local Abbreviation st1 :=
  (Mcts g 2 C ∅ ∅ (<[s := 0%nat]> ∅) (<[s := prior]> ∅)
        (<[s := false]> ∅) r [Predict root] : mcts).
Local Abbreviation st2 :=
  (Mcts (step g 0).1 2 C ∅ ∅
        (<[array2string child := 0%nat]> (<[s := 0%nat]> ∅))
        (<[array2string child := prior]> (<[s := prior]> ∅))
        (<[array2string child := false]> (<[s := false]> ∅))
        r [Predict root; Step 0; Predict child] : mcts).

Lemma scenario_first limit :
  search (S limit) root false (init g 2 C r) = (Ok (- (1 / 2))%R, st1).
Proof. rewrite search_leaf by done. by rewrite expand_eq, Hpredict. Qed.

Lemma scenario_scores a :
  0 <= a < action_dim ->
  ucb st1 s a = Ok (U st1 s 0) /\ U st1 s a = U st1 s 0.
Proof.
  intros Ha. unfold ucb, U, subscript, contains. cbn [Qsa Nsa Ps Ns cpuct].
  rewrite !lookup_empty, !lookup_insert_eq. cbn [default].
  rewrite bool_decide_eq_false_2 by (by intros [? ?]).
  rewrite (py_getitem_nth prior a 0%R)
    by (cbn; unfold action_dim in Ha; lia).
  unfold action_dim in Ha.
  assert (a = 0 \/ a = 1 \/ a = 2 \/ a = 3 \/ a = 4 \/ a = 5)
    as Hcases by lia.
  destruct Hcases as [-> | [-> | [-> | [-> | [-> | ->]]]]]; done.
Qed.

Lemma scenario_select : select st1 s = Ok 0.
Proof.
  apply (select_all_equal st1 s (U st1 s 0)). intros a Ha.
  by apply scenario_scores.
Qed.

Lemma scenario_descend :
  descend s false 0 st1
  = log (Step 0) (upd_game (fun _ => (step g 0).1) st1).
Proof.
  unfold MCTS.descend.
  by rewrite (enter_seen s false st1 false) by apply lookup_insert_eq.
Qed.

Lemma scenario_child limit :
  search (S limit) child false (descend s false 0 st1)
  = (Ok (- (1 / 2))%R, st2).
Proof.
  rewrite scenario_descend. rewrite search_leaf.
  - rewrite expand_eq, Hpredict. rewrite enter_new; [done |].
    cbn. rewrite lookup_insert_ne by done. apply lookup_empty.
  - cbn. rewrite lookup_insert_ne by done. apply lookup_empty.
  - cbn. rewrite lookup_insert_ne by done. by rewrite lookup_empty.
Qed.

Lemma scenario_second limit :
  search (S (S limit)) root false st1
  = (Ok (1 / 2)%R, backed_up s 0 (- (1 / 2)) st2).
Proof.
  rewrite (search_inner (S limit) root false st1 0);
    [| by (cbn; rewrite lookup_insert_eq)
     | by (cbn; rewrite lookup_insert_eq)
     | exact scenario_select ].
  change (game st1) with g. rewrite Hdone.
  rewrite scenario_child. rewrite backup_ok.
  - by rewrite Ropp_involutive.
  - cbn. by rewrite !lookup_empty.
  - cbn. rewrite lookup_insert_ne by done. rewrite lookup_insert_eq.
    by eexists.
Qed.

Lemma scenario_counts :
  root_counts (backed_up s 0 (- (1 / 2)) st2) s
  = [1; 0; 0; 0; 0; 0]%nat.
Proof.
  unfold root_counts, contains.
  change (Nsa (backed_up s 0 (- (1 / 2)) st2))
    with (<[(s, 0) := 1%nat]> (∅ : gmap (string * Z) nat)).
  change (range action_dim) with [0; 1; 2; 3; 4; 5]. cbn [map].
  rewrite lookup_insert_eq.
  rewrite !lookup_insert_ne by congruence. rewrite !lookup_empty.
  rewrite bool_decide_eq_true_2 by (by eexists).
  by rewrite bool_decide_eq_false_2 by (by intros [? ?]).
Qed.

(** C1. With six actions, an estimator that always returns the value
    0.5 and the prior [1/6]*6, and an environment that never reports
    termination and whose first move from the root leads to a new
    state, two simulations on a new engine go as follows. The first
    expands the root as a leaf: the prior is stored, [Ns[root] = 0], no
    edge is created. The second finds the root expanded with six equal
    scores, so the scan keeps action 0; the child is a new leaf that
    returns -0.5; the backup leaves [Qsa[(root, 0)] = -0.5],
    [Nsa[(root, 0)] = 1], [Ns[root] = 1] and the root call returns 0.5.
    The root counts are [1, 0, 0, 0, 0, 0], and [getActionProb] with
    [numMCTSSim = 2] and temperature 0 returns [1, 0, 0, 0, 0, 0]: the
    random choice has the single candidate 0. *)
Theorem two_simulations limit :
  (forall r', (choice r' [0]).1 = 0) ->
  exists after1 child2 after2 final,
    search (S (S limit)) root false (init g 2 C r)
    = (Ok (- (1 / 2))%R, after1) /\
    Ps after1 !! s = Some prior /\ Ns after1 !! s = Some 0%nat /\
    Qsa after1 = ∅ /\ Nsa after1 = ∅ /\
    (forall a, 0 <= a < action_dim -> U after1 s a = U after1 s 0) /\
    select after1 s = Ok 0 /\
    search (S limit) child false (descend s false 0 after1)
    = (Ok (- (1 / 2))%R, child2) /\
    Ps child2 !! array2string child = Some prior /\
    search (S (S limit)) root false after1 = (Ok (1 / 2)%R, after2) /\
    Qsa after2 !! (s, 0) = Some (- (1 / 2))%R /\
    Nsa after2 !! (s, 0) = Some 1%nat /\
    Ns after2 !! s = Some 1%nat /\
    root_counts after2 s = [1; 0; 0; 0; 0; 0]%nat /\
    getActionProb (S (S limit)) root 0 (init g 2 C r)
    = (Ok [1; 0; 0; 0; 0; 0]%R, final).
Proof.
  intros Hchoice.
  exists st1, st2, (backed_up s 0 (- (1 / 2)) st2),
    (upd_seed (fun _ => (choice r [0]).2) (backed_up s 0 (- (1 / 2)) st2)).
  split; [apply scenario_first |].
  split; [apply lookup_insert_eq |]. split; [apply lookup_insert_eq |].
  split; [done |]. split; [done |].
  split; [intros a Ha; by apply scenario_scores |].
  split; [apply scenario_select |]. split; [apply scenario_child |].
  split; [apply lookup_insert_eq |].
  split; [apply scenario_second |].
  split; [apply lookup_insert_eq |]. split; [apply lookup_insert_eq |].
  split.
  { unfold backed_up. cbn. rewrite lookup_insert_eq.
    rewrite lookup_insert_ne by done. by rewrite lookup_insert_eq. }
  split; [apply scenario_counts |].
  unfold MCTS.getActionProb. unfold_monad. cbn [numMCTSSim init].
  rewrite simulations_S, scenario_first, simulations_S, scenario_second.
  cbn [MCTS.simulations]. unfold_monad. cbv beta iota.
  rewrite scenario_counts.
  destruct (Req_dec_T 0 0) as [_ | Hne]; [| done].
  change (argwhere_eq [1; 0; 0; 0; 0; 0]%nat
            (list_max_nat [1; 0; 0; 0; 0; 0]%nat)) with [0].
  unfold random_choice. cbn [fst snd]. by rewrite Hchoice.
Qed.

End TwoSimulations.

(** *** Normalisation of counts that are all zero *)

Lemma sumR_zeros (n : nat) : sumR (replicate n 0%R) = 0%R.
Proof.
  unfold sumR. induction n as [| n IH]; [done |].
  cbn [replicate fold_left]. by rewrite Rplus_0_l.
Qed.

Lemma mapM_pow_zeros (e : R) (l : list nat) :
  (forall n, n ∈ l -> n = 0%nat) -> l <> [] -> e <> 0%R ->
  mapM (fun x => py_pow x e) l = Raise ZeroDivisionError \/
  mapM (fun x => py_pow x e) l = Ok (replicate (length l) 0%R).
Proof.
  intros Hzero Hne He. destruct (Rlt_dec e 0) as [Hneg | Hpos].
  - left. destruct l as [| x l]; [done |].
    rewrite (Hzero x) by apply list_elem_of_here. cbn.
    by destruct (Rlt_dec e 0).
  - right. clear Hne. induction l as [| x l IH]; [done |].
    rewrite (Hzero x) by apply list_elem_of_here. cbn [mapM py_pow].
    destruct (Rlt_dec e 0); [done |].
    destruct (Req_dec_T e 0); [done |].
    rewrite IH; [done |]. intros m Hm. apply Hzero.
    by apply list_elem_of_further.
Qed.

Lemma mapM_div_zero (l : list R) :
  l <> [] -> mapM (fun x => py_div x 0) l = Raise ZeroDivisionError.
Proof.
  destruct l as [| x l]; [done |]. intros _. cbn. unfold py_div.
  by destruct (Req_dec_T 0 0).
Qed.

(** C8, what the code does. With a temperature other than 0 and every
    root count 0 after the simulations, [getActionProb] has no fallback:
    the division (or, for a negative temperature, the power) raises
    [ZeroDivisionError]. *)
Theorem zero_counts_raise limit b temp st :
  let s := array2string b in
  let run := simulations limit (numMCTSSim st) b st in
  temp <> 0%R ->
  run.1 = Ok tt ->
  (forall n, n ∈ root_counts run.2 s -> n = 0%nat) ->
  getActionProb limit b temp st = (Raise ZeroDivisionError, run.2).
Proof.
  cbn zeta. intros Htemp Hrun Hzero.
  unfold MCTS.getActionProb. unfold_monad.
  destruct (simulations limit (numMCTSSim st) b st) as [r st'].
  cbn [fst snd] in *. subst r.
  destruct (Req_dec_T temp 0) as [? | _]; [done |].
  assert (root_counts st' (array2string b) <> []) as Hne by done.
  assert (1 / temp <> 0)%R as He.
  { unfold Rdiv. rewrite Rmult_1_l. by apply Rinv_neq_0_compat. }
  destruct (mapM_pow_zeros (1 / temp) _ Hzero Hne He) as [-> | ->]; [done |].
  rewrite sumR_zeros, mapM_div_zero; [done |].
  destruct (root_counts st' (array2string b)); done.
Qed.

(** ** Further properties of the engine *)

Local Abbreviation tidy := (tidy array2string predict).
Local Abbreviation replay := (replay step).

Ltac fields :=
  cbn [game numMCTSSim cpuct Qsa Nsa Ns Ps Es seed calls
       upd_game upd_Qsa upd_Nsa upd_Ns upd_Ps upd_Es upd_seed log] in *.

(** *** A scheme for facts that every call keeps *)

Lemma search_preserves (P : mcts -> Prop) :
  (forall s ge st, P st -> P (enter s ge st)) ->
  (forall b st, wf st -> P st -> Ps st !! array2string b = None ->
                Es st !! array2string b = Some false -> P (expand b st).2) ->
  (forall a f st, P st -> 0 <= a < action_dim ->
                  P (log (Step a) (upd_game f st))) ->
  (forall s a v st, wf st -> P st -> is_Some (Ps st !! s) ->
                    Es st !! s = Some false -> 0 <= a < action_dim ->
                    P (backed_up s a v st)) ->
  forall limit b ge st, wf st -> P st -> P (search limit b ge st).2.
Proof.
  intros Henter Hexpand Hstep Hback.
  induction limit as [| limit IH]; intros b ge st Hwf HP; [done |].
  rewrite search_S. cbn zeta.
  pose proof (Henter (array2string b) ge st HP) as HP0.
  pose proof (wf_enter (array2string b) ge st Hwf) as Hwf0.
  pose proof (enter_Es (array2string b) ge st) as HEs0.
  destruct (default ge (Es st !! array2string b)) eqn:Hterm; [done |].
  destruct (contains (Ps st) (array2string b)) eqn:Hexp.
  - destruct (select st (array2string b)) as [a | e] eqn:Hsel; [| done].
    apply select_range in Hsel. apply contains_true in Hexp as [p Hp].
    pose proof (descend_extends (array2string b) ge a st Hsel) as Hdown.
    pose proof (search_extends limit (step (game st) a).2.1
                  (step (game st) a).2.2
                  (descend (array2string b) ge a st)) as Hext.
    pose proof (search_wf limit (step (game st) a).2.1
                  (step (game st) a).2.2 _
                  (wf_descend (array2string b) ge a st Hwf)) as Hwf2.
    pose proof (IH (step (game st) a).2.1 (step (game st) a).2.2
                   (descend (array2string b) ge a st)
                   (wf_descend _ _ _ _ Hwf)
                   (Hstep a _ _ HP0 Hsel)) as HP2.
    destruct (search limit _ _ _) as [[v | e] st2]; cbn [snd] in *;
      [| done].
    assert (Ps st2 !! array2string b = Some p) as Hp2
        by (apply (ext_Ps _ _ _ Hext), (ext_Ps _ _ _ Hdown), Hp).
    assert (Es st2 !! array2string b = Some false) as HEs2
        by (apply (ext_Es _ _ _ Hext); exact HEs0).
    rewrite backup_ok;
      [| apply (wf_edges _ Hwf2) | apply (wf_count _ Hwf2); by eexists].
    apply Hback; [done | done | by eexists | done | done].
  - apply contains_false in Hexp. apply Hexpand; try done.
    unfold enter. by destruct (contains (Es st) _).
Qed.

Lemma simulations_preserves (P : mcts -> Prop) limit n b st :
  (forall b' ge st', wf st' -> P st' -> P (search limit b' ge st').2) ->
  wf st -> P st -> P (simulations limit n b st).2.
Proof.
  intros Hsearch. revert st. induction n as [| n IH]; intros st Hwf HP;
    [done |].
  rewrite simulations_S.
  pose proof (search_wf limit b false st Hwf).
  pose proof (Hsearch b false st Hwf HP).
  destruct (search limit b false st) as [[v | e] st']; [by apply IH | done].
Qed.

(** *** The dictionaries stay tidy *)

Lemma queried_snoc_step (l : list (event board)) a :
  queried (l ++ [Step a]) = queried l.
Proof. unfold queried. rewrite omap_app. cbn. by rewrite app_nil_r. Qed.

Lemma queried_snoc_predict (l : list (event board)) b :
  queried (l ++ [Predict b]) = queried l ++ [b].
Proof. unfold queried. by rewrite omap_app. Qed.

Lemma tidy_same st st' :
  Nsa st' = Nsa st -> Ns st' = Ns st -> Ps st' = Ps st -> Es st' = Es st ->
  calls st' = calls st -> tidy st -> tidy st'.
Proof.
  intros HN HNs HP HE Hc [A B C D E F].
  split; rewrite ?HN, ?HNs, ?HP, ?HE, ?Hc; auto.
Qed.

Lemma tidy_init (g : env) sims c (r : rng) : tidy (init g sims c r).
Proof.
  split; cbn.
  - intros k n. by rewrite lookup_empty.
  - intros s. rewrite lookup_empty. by intros [? ?].
  - intros s. rewrite lookup_empty. by intros [? ?].
  - intros s p. by rewrite lookup_empty.
  - intros b Hb. by apply elem_of_nil in Hb.
  - constructor.
Qed.

Lemma tidy_enter s ge st : tidy st -> tidy (enter s ge st).
Proof.
  intros [A B C D E F]. unfold enter.
  destruct (contains (Es st) s) eqn:Hseen; [done |].
  apply contains_false in Hseen. split; cbn; auto.
  intros s' Hs'. rewrite lookup_insert_ne; [by apply C |].
  intros <-. apply C in Hs'. congruence.
Qed.

Lemma tidy_expand b st :
  tidy st -> Ps st !! array2string b = None ->
  Es st !! array2string b = Some false -> tidy (expand b st).2.
Proof.
  intros [A B C D E F] Hleaf Hlive. rewrite expand_eq. split; cbn [snd]; fields.
  - exact A.
  - intros s. destruct (decide (array2string b = s)) as [<- | Hne].
    + intros _. rewrite lookup_insert_eq. by eexists.
    + rewrite !lookup_insert_ne by done. apply B.
  - intros s. destruct (decide (array2string b = s)) as [<- | Hne].
    + done.
    + rewrite lookup_insert_ne by done. apply C.
  - intros s p. rewrite queried_snoc_predict.
    destruct (decide (array2string b = s)) as [<- | Hne].
    + rewrite lookup_insert_eq. intros [= <-]. exists b.
      split; [| done]. apply elem_of_app. right. apply list_elem_of_here.
    + rewrite lookup_insert_ne by done. intros Hp.
      destruct (D s p Hp) as (b' & Hin & Hkey & Hprior). exists b'.
      split; [| done]. apply elem_of_app. by left.
  - intros b'. rewrite queried_snoc_predict. intros Hin.
    apply elem_of_app in Hin as [Hin | Hin].
    + apply E in Hin as [p Hp].
      destruct (decide (array2string b = array2string b')) as [Heq | Hne];
        [rewrite <- Heq in Hp; congruence |].
      rewrite lookup_insert_ne by done. by eexists.
    + apply list_elem_of_singleton in Hin as ->.
      rewrite lookup_insert_eq. by eexists.
  - rewrite queried_snoc_predict, map_app. cbn.
    apply NoDup_app. split; [done |]. split; [| apply NoDup_singleton].
    intros s Hs Hs'. apply list_elem_of_singleton in Hs' as ->.
    apply list_elem_of_fmap in Hs as (b' & Hkey & Hin).
    apply E in Hin as [p Hp]. congruence.
Qed.

Lemma tidy_step a (f : env -> env) st :
  tidy st -> tidy (log (Step a) (upd_game f st)).
Proof.
  intros [A B C D E F]. split; fields; rewrite ?queried_snoc_step; auto.
Qed.

Lemma tidy_backed_up s a v st :
  tidy st -> is_Some (Ps st !! s) -> tidy (backed_up s a v st).
Proof.
  intros [A B C D E F] HP.
  assert (Ps (backed_up s a v st) = Ps st /\ Es (backed_up s a v st) = Es st
          /\ calls (backed_up s a v st) = calls st) as (HPs & HEs & Hc)
      by (unfold backed_up;
          by destruct (Qsa st !! (s, a)), (Nsa st !! (s, a))).
  split; rewrite ?HPs, ?HEs, ?Hc; auto.
  - intros k n. unfold backed_up.
    destruct (Qsa st !! (s, a)), (Nsa st !! (s, a)); cbn;
      (destruct (decide ((s, a) = k)) as [<- | Hne];
       [rewrite lookup_insert_eq; intros [= <-]; lia
       | rewrite lookup_insert_ne by done; apply A]).
  - intros s'. unfold backed_up.
    destruct (Qsa st !! (s, a)), (Nsa st !! (s, a)); cbn;
      (destruct (decide (s = s')) as [<- | Hne];
       [done | rewrite lookup_insert_ne by done; apply B]).
Qed.

Lemma search_tidy limit b ge st :
  wf st -> tidy st -> tidy (search limit b ge st).2.
Proof.
  apply (search_preserves tidy).
  - apply tidy_enter.
  - intros b' st' _ Ht Hleaf Hlive. by apply tidy_expand.
  - intros a f st' Ht _. by apply tidy_step.
  - intros s a v st' _ Ht HP _ _. by apply tidy_backed_up.
Qed.

Lemma reachable_tidy st : reachable st -> tidy st.
Proof.
  induction 1 as [g sims c r | st limit b ge Hr IH | st limit b temp Hr IH
                  | st g Hr IH].
  - apply tidy_init.
  - apply search_tidy; [by apply reachable_wf | done].
  - destruct (getActionProb_frame limit b temp st)
      as (_ & _ & _ & _ & HN & HNs & HP & HE & Hc).
    eapply tidy_same; [exact HN | exact HNs | exact HP | exact HE | exact Hc |].
    apply (simulations_preserves tidy); [| by apply reachable_wf | done].
    intros b' ge st' Hwf Ht. by apply search_tidy.
  - by apply (tidy_same st).
Qed.

(** *** From root counts to probabilities *)

Lemma root_counts_length st s : length (root_counts st s) = 6%nat.
Proof. reflexivity. Qed.

Lemma root_counts_lookup st s a :
  0 <= a < action_dim ->
  root_counts st s !! Z.to_nat a = Some (default 0%nat (Nsa st !! (s, a))).
Proof.
  intros Ha. unfold root_counts. rewrite list_lookup_fmap.
  rewrite range_lookup by (unfold action_dim in *; lia).
  cbn. rewrite Z2Nat.id by lia. f_equal.
  destruct (contains (Nsa st) (s, a)) eqn:E; [done |].
  apply contains_false in E. by rewrite E.
Qed.

Lemma list_max_nat_ge (l : list nat) n : n ∈ l -> (n <= list_max_nat l)%nat.
Proof.
  unfold list_max_nat.
  induction l as [| x l IH]; [by intros H; apply elem_of_nil in H |].
  intros H. apply elem_of_cons in H as [-> | H]; cbn [foldr fold_right];
    [lia |].
  apply IH in H. lia.
Qed.

Lemma list_max_nat_in (l : list nat) : l <> [] -> list_max_nat l ∈ l.
Proof.
  induction l as [| x l IH]; [done |]. intros _.
  change (list_max_nat (x :: l)) with (Nat.max x (list_max_nat l)).
  destruct l as [| y l].
  - change (list_max_nat []) with 0%nat. rewrite Nat.max_0_r.
    apply list_elem_of_here.
  - destruct (Nat.max_spec x (list_max_nat (y :: l))) as [[_ ->] | [_ ->]].
    + apply list_elem_of_further. by apply IH.
    + apply list_elem_of_here.
Qed.

Lemma elem_of_argwhere_eq (counts : list nat) (m : nat) (a : Z) :
  a ∈ argwhere_eq counts m <->
  exists i, a = Z.of_nat i /\ counts !! i = Some m.
Proof.
  unfold argwhere_eq. rewrite list_elem_of_fmap. split.
  - intros ([a' c] & -> & Hin). apply list_elem_of_filter in Hin as [Hm Hin].
    cbn in Hm. subst c.
    apply elem_of_lookup_zip_with in Hin as (i & y & z & [= -> ->] & Hy & Hz).
    exists i. split; [| done].
    apply lookup_lt_Some in Hz as Hlt.
    rewrite range_lookup in Hy by lia. by injection Hy as <-.
  - intros (i & -> & Hi). exists (Z.of_nat i, m). split; [done |].
    apply list_elem_of_filter. split; [done |].
    apply elem_of_lookup_zip_with. exists i, (Z.of_nat i), m.
    split; [done |]. split; [| done].
    apply lookup_lt_Some in Hi as Hlt. apply range_lookup. lia.
Qed.

Lemma py_setitem_one_hot (n : nat) (a : Z) :
  0 <= a < Z.of_nat n ->
  py_setitem (replicate n 0%R) a 1%R = Ok (one_hot n a).
Proof.
  intros Ha. unfold py_setitem, one_hot. rewrite length_replicate.
  destruct (Z.ltb_spec a 0) as [? | _]; [lia |].
  destruct (Z.ltb_spec a 0) as [? | _]; [lia |].
  by destruct (Z.ltb_spec a (Z.of_nat n)) as [_ | ?]; [| lia].
Qed.

(** X1. Greedy mode. When the simulations complete and the random choice
    returns one of its candidates, [getActionProb] with temperature 0
    returns the vector that is 1 at one action and 0 elsewhere, and no
    action of the range has more root visits than that one. *)
Theorem greedy_one_hot limit b st st1 :
  let s := array2string b in
  (forall r l, l <> [] -> (choice r l).1 ∈ l) ->
  simulations limit (numMCTSSim st) b st = (Ok tt, st1) ->
  exists a,
    0 <= a < action_dim /\
    (forall a', 0 <= a' < action_dim ->
                (default 0 (Nsa st1 !! (s, a'))
                 <= default 0 (Nsa st1 !! (s, a)))%nat) /\
    (getActionProb limit b 0 st).1 = Ok (one_hot 6 a).
Proof.
  cbn zeta. intros Hchoice Hsims.
  set (counts := root_counts st1 (array2string b)).
  set (bestAs := argwhere_eq counts (list_max_nat counts)).
  assert (counts <> []) as Hne by done.
  assert (bestAs <> []) as HbestAs.
  { pose proof (list_max_nat_in counts Hne) as Hin.
    apply list_elem_of_lookup in Hin as [i Hi].
    assert (Z.of_nat i ∈ bestAs) as Hmem
        by (apply elem_of_argwhere_eq; eauto).
    intros Heq. rewrite Heq in Hmem. by apply elem_of_nil in Hmem. }
  pose proof (Hchoice (seed st1) bestAs HbestAs) as Hpick.
  apply elem_of_argwhere_eq in Hpick as (i & Hai & Hi).
  apply lookup_lt_Some in Hi as Hlt.
  change (length counts) with 6%nat in Hlt.
  exists (choice (seed st1) bestAs).1. rewrite Hai.
  assert (0 <= Z.of_nat i < action_dim) as Hrange
      by (unfold action_dim; lia).
  split; [done |]. split.
  - intros a' Ha'.
    pose proof (root_counts_lookup st1 (array2string b) a' Ha') as Ha'c.
    pose proof (root_counts_lookup st1 (array2string b) _ Hrange) as Hac.
    rewrite Nat2Z.id in Hac. fold counts in Ha'c, Hac.
    assert (default 0%nat (Nsa st1 !! (array2string b, Z.of_nat i))
            = list_max_nat counts) as -> by congruence.
    apply (list_max_nat_ge counts). by apply list_elem_of_lookup_2 in Ha'c.
  - unfold MCTS.getActionProb. unfold_monad. rewrite Hsims.
    cbv beta iota. fold counts.
    destruct (Req_dec_T 0 0) as [_ | ?]; [| done].
    fold bestAs. unfold random_choice.
    destruct bestAs as [| x l] eqn:Hb; [done |]. cbn [fst snd].
    rewrite Hai.
    change (length counts) with 6%nat.
    by rewrite py_setitem_one_hot by lia.
Qed.






Lemma mapM_ok {A B} (f : A -> result B) (g : A -> B) (l : list A) :
  (forall x, x ∈ l -> f x = Ok (g x)) -> mapM f l = Ok (map g l).
Proof.
  induction l as [| x l IH]; intros H; [done |].
  cbn. rewrite (H x) by apply list_elem_of_here.
  rewrite IH; [done |]. intros y Hy. apply H. by apply list_elem_of_further.
Qed.







Lemma inv_temp_neg (temp : R) : (temp < 0)%R -> (1 / temp < 0)%R.
Proof. intros H. unfold Rdiv. rewrite Rmult_1_l. by apply Rinv_lt_0_compat. Qed.




(** X4. With a negative temperature and completed simulations, a root
    action without visits makes [getActionProb] raise [ZeroDivisionError]:
    0 cannot be raised to a negative power. *)
Theorem negative_temperature_raises limit b temp st st1 :
  (temp < 0)%R ->
  simulations limit (numMCTSSim st) b st = (Ok tt, st1) ->
  (0%nat ∈ root_counts st1 (array2string b)) ->
  getActionProb limit b temp st = (Raise ZeroDivisionError, st1).
Proof.
  intros Htemp Hsims Hzero.
  unfold MCTS.getActionProb. unfold_monad. rewrite Hsims. cbv beta iota.
  destruct (Req_dec_T temp 0) as [? | _]; [lra |].
  pose proof (inv_temp_neg temp Htemp) as He.
  assert (mapM (fun x => py_pow x (1 / temp)%R)
               (root_counts st1 (array2string b))
          = Raise ZeroDivisionError) as ->; [| done].
  induction (root_counts st1 (array2string b)) as [| x l IH];
    [by apply elem_of_nil in Hzero |].
  apply elem_of_cons in Hzero as [<- | Hin].
  - cbn. by destruct (Rlt_dec (1 / temp) 0).
  - cbn [mapM]. destruct x as [| x].
    + cbn. by destruct (Rlt_dec (1 / temp) 0).
    + cbn [py_pow]. by rewrite IH.
Qed.

(** *** What the dictionaries of a reachable engine look like *)

(** X5. On every engine reached from a new one, [Qsa] and [Nsa] have the
    same keys, every edge has been visited at least once, the states with
    a visit count are exactly the expanded ones, and edges leave expanded
    states only. *)
Theorem statistics_shape st :
  reachable st ->
  (forall k, is_Some (Qsa st !! k) <-> is_Some (Nsa st !! k)) /\
  (forall k n, Nsa st !! k = Some n -> (1 <= n)%nat) /\
  (forall s, is_Some (Ns st !! s) <-> is_Some (Ps st !! s)) /\
  (forall s a, is_Some (Nsa st !! (s, a)) -> is_Some (Ps st !! s)).
Proof.
  intros Hreach. pose proof (reachable_wf st Hreach) as Hwf.
  pose proof (reachable_tidy st Hreach) as Ht.
  split; [apply (wf_edges _ Hwf) |].
  split; [apply (tidy_visits _ _ _ Ht) |].
  split.
  - intros s. split; [apply (tidy_counted _ _ _ Ht) | apply (wf_count _ Hwf)].
  - intros s a H. by apply (wf_source _ Hwf) in H as [? _].
Qed.

(** X6. A state cached as terminal is never expanded: on every reachable
    engine it has no prior, no visit count and no outgoing edge; and every
    expanded state is cached as not terminal. *)
Theorem terminal_states_bare st s :
  reachable st ->
  (Es st !! s = Some true ->
   Ps st !! s = None /\ Ns st !! s = None /\
   forall a, Qsa st !! (s, a) = None /\ Nsa st !! (s, a) = None) /\
  (is_Some (Ps st !! s) -> Es st !! s = Some false).
Proof.
  intros Hreach. pose proof (reachable_wf st Hreach) as Hwf.
  pose proof (reachable_tidy st Hreach) as Ht.
  split; [| apply (tidy_live _ _ _ Ht)].
  intros Hterm.
  assert (Ps st !! s = None) as HP.
  { destruct (Ps st !! s) as [p |] eqn:Hp; [| done].
    pose proof (tidy_live _ _ _ Ht s) as Hlive. rewrite Hp in Hlive.
    specialize (Hlive ltac:(by eexists)). congruence. }
  split; [done |]. split.
  - destruct (Ns st !! s) as [n |] eqn:Hn; [| done].
    destruct (tidy_counted _ _ _ Ht s) as [p Hp]; [by eexists | congruence].
  - intros a.
    assert (Nsa st !! (s, a) = None) as HN.
    { destruct (Nsa st !! (s, a)) as [n |] eqn:Hn; [| done].
      destruct (wf_source _ Hwf s a) as [[p Hp] _]; [by eexists | congruence]. }
    split; [| done].
    destruct (Qsa st !! (s, a)) as [q |] eqn:Hq; [| done].
    destruct (wf_edges _ Hwf (s, a)) as [[n Hn] _]; [by eexists | congruence].
Qed.

(** X7. Over the whole life of an engine the estimator is queried at most
    once per state key; the expanded states are exactly the keys of the
    boards it was queried on, and the prior stored for a state is the one
    the estimator returned for that query. *)
Theorem estimator_once_per_key st :
  reachable st ->
  NoDup (map array2string (queried (calls st))) /\
  (forall s, is_Some (Ps st !! s) <->
             exists b, b ∈ queried (calls st) /\ array2string b = s) /\
  (forall s p, Ps st !! s = Some p ->
               exists b, b ∈ queried (calls st) /\ array2string b = s /\
                         p = (predict b).2).
Proof.
  intros Hreach. pose proof (reachable_tidy st Hreach) as Ht.
  split; [apply (tidy_once _ _ _ Ht) |]. split.
  - intros s. split.
    + intros [p Hp].
      destruct (tidy_prior _ _ _ Ht s p Hp) as (b & Hin & Hkey & _). eauto.
    + intros (b & Hin & <-). by apply (tidy_queried _ _ _ Ht).
  - apply (tidy_prior _ _ _ Ht).
Qed.

(** *** Calls that fail *)

Lemma py_getitem_raise {A} (l : list A) (i : Z) e :
  0 <= i -> py_getitem l i = Raise e ->
  e = IndexError /\ (length l <= Z.to_nat i)%nat.
Proof.
  intros Hi. unfold py_getitem.
  destruct (Z.ltb_spec i 0) as [? | _]; [lia |].
  destruct (Z.ltb_spec i 0) as [? | _]; [lia |].
  destruct (l !! Z.to_nat i) eqn:E; [done |]. intros [= <-].
  split; [done |]. by apply lookup_ge_None in E.
Qed.

Lemma ucb_raise st s a p e :
  wf st -> Ps st !! s = Some p -> 0 <= a < action_dim ->
  ucb st s a = Raise e -> e = IndexError /\ (length p < 6)%nat.
Proof.
  intros Hwf Hp Ha. unfold ucb, subscript. rewrite Hp.
  destruct (wf_count _ Hwf s) as [n Hn]; [by eexists |]. rewrite Hn.
  assert (forall e', py_getitem p a = Raise e' ->
                     e' = IndexError /\ (length p < 6)%nat) as Hget.
  { intros e' He'. apply py_getitem_raise in He' as [-> Hlen]; [| lia].
    split; [done |]. unfold action_dim in Ha. lia. }
  destruct (contains (Qsa st) (s, a)) eqn:E.
  - apply contains_true in E. pose proof E as [q Hq].
    apply (wf_edges _ Hwf) in E as [m Hm]. rewrite Hq, Hm.
    destruct (py_getitem p a) eqn:Hg; [done |]. intros [= <-]. by apply Hget.
  - destruct (py_getitem p a) eqn:Hg; [done |]. intros [= <-]. by apply Hget.
Qed.

Lemma select_loop_raise st s (l : list Z) cur best e :
  select_loop st s l cur best = Raise e ->
  exists a, a ∈ l /\ ucb st s a = Raise e.
Proof.
  revert cur best. induction l as [| x l IH]; intros cur best; [done |].
  cbn [select_loop]. destruct (ucb st s x) as [u | e'] eqn:Hu.
  - destruct (gt_bound u cur); intros H; apply IH in H as (a & Ha & He);
      exists a; (split; [by apply list_elem_of_further | done]).
  - intros [= <-]. exists x. split; [apply list_elem_of_here | done].
Qed.

Lemma select_raise st s p e :
  wf st -> Ps st !! s = Some p -> select st s = Raise e ->
  e = IndexError /\ (length p < 6)%nat.
Proof.
  intros Hwf Hp Hsel. apply select_loop_raise in Hsel as (a & Ha & He).
  apply elem_of_range in Ha. by apply (ucb_raise st s a p e).
Qed.

Lemma enter_fields s ge st :
  game (enter s ge st) = game st /\ Qsa (enter s ge st) = Qsa st /\
  Nsa (enter s ge st) = Nsa st /\ Ns (enter s ge st) = Ns st /\
  Ps (enter s ge st) = Ps st /\ calls (enter s ge st) = calls st.
Proof. unfold enter. by destruct (contains (Es st) s). Qed.

Lemma search_raise limit b ge st e st' :
  wf st -> search limit b ge st = (Raise e, st') ->
  (Qsa st' = Qsa st /\ Nsa st' = Nsa st /\ Ns st' = Ns st /\
   Ps st' = Ps st) /\
  (e = RecursionError \/
   e = IndexError /\ exists s p, Ps st !! s = Some p /\ (length p < 6)%nat).
Proof.
  revert b ge st. induction limit as [| limit IH]; intros b ge st Hwf.
  - intros [= <- <-]. split; [done | by left].
  - rewrite search_S. cbn zeta.
    destruct (enter_fields (array2string b) ge st)
      as (_ & HQ0 & HN0 & HNs0 & HP0 & _).
    destruct (default ge (Es st !! array2string b)); [done |].
    destruct (contains (Ps st) (array2string b)) eqn:Hexp;
      [| by rewrite expand_eq].
    apply contains_true in Hexp as [p Hp].
    destruct (select st (array2string b)) as [a | e0] eqn:Hsel.
    + pose proof (select_range _ _ _ Hsel) as Ha.
      pose proof (wf_descend (array2string b) ge a st Hwf) as Hwf1.
      pose proof (search_wf limit (step (game st) a).2.1
                    (step (game st) a).2.2 _ Hwf1) as Hwf2.
      pose proof (search_extends limit (step (game st) a).2.1
                    (step (game st) a).2.2
                    (descend (array2string b) ge a st)) as Hext.
      specialize (IH (step (game st) a).2.1 (step (game st) a).2.2
                     (descend (array2string b) ge a st) Hwf1).
      destruct (search limit _ _ _) as [[v | e1] st2]; cbn [snd] in *.
      * rewrite backup_ok; [done | apply (wf_edges _ Hwf2) |].
        apply (wf_count _ Hwf2). exists p.
        apply (ext_Ps _ _ _ Hext).
        by apply (ext_Ps _ _ _ (descend_extends _ ge a st Ha)).
      * intros [= <- <-]. destruct (IH eq_refl) as [Hsame Hkind].
        unfold MCTS.descend in Hsame, Hkind. fields.
        rewrite HQ0, HN0, HNs0, HP0 in Hsame. rewrite HP0 in Hkind.
        by split.
    + intros [= <- <-]. split; [by rewrite HQ0, HN0, HNs0, HP0 |].
      right. destruct (select_raise st _ p e0 Hwf Hp Hsel) as [-> Hlen].
      split; [done |]. eauto.
Qed.

(** X8. A call of [search] that ends in an exception leaves [Qsa], [Nsa],
    [Ns] and [Ps] exactly as they were. On an engine reached from a new
    one the exception is [RecursionError], or [IndexError] when the
    estimator has returned a prior with fewer than six entries; it is never
    [KeyError]. *)
Theorem failed_search_keeps_statistics limit b game_ended st e st' :
  reachable st ->
  search limit b game_ended st = (Raise e, st') ->
  (Qsa st' = Qsa st /\ Nsa st' = Nsa st /\ Ns st' = Ns st /\
   Ps st' = Ps st) /\
  (e = RecursionError \/
   e = IndexError /\
   exists b', b' ∈ queried (calls st) /\ (length (predict b').2 < 6)%nat) /\
  ((forall b', length (predict b').2 = 6%nat) -> e = RecursionError).
Proof.
  intros Hreach Hfail. pose proof (reachable_wf st Hreach) as Hwf.
  pose proof (reachable_tidy st Hreach) as Ht.
  destruct (search_raise limit b game_ended st e st' Hwf Hfail)
    as [Hsame Hkind].
  assert (e = RecursionError \/
          e = IndexError /\
          exists b', b' ∈ queried (calls st) /\
                     (length (predict b').2 < 6)%nat) as Hkind'.
  { destruct Hkind as [-> | (-> & s & p & Hp & Hlen)]; [by left | right].
    split; [done |].
    destruct (tidy_prior _ _ _ Ht s p Hp) as (b' & Hin & _ & ->). eauto. }
  split; [done |]. split; [done |].
  intros Hsix. destruct Hkind' as [-> | (_ & b' & _ & Hlen)]; [done |].
  rewrite Hsix in Hlen. lia.
Qed.

(** *** The walk of a call *)

Lemma replay_cons (g : env) a (acts : list Z) :
  replay g (a :: acts) = replay (step g a).1 acts.
Proof. reflexivity. Qed.

Lemma descend_game s ge a st :
  game (descend s ge a st) = (step (game st) a).1.
Proof.
  unfold MCTS.descend. fields.
  by destruct (enter_fields s ge st) as (-> & _).
Qed.

(** The log of a call is a run of moves, then at most one query; the
    environment ends where the moves lead; the value of a completed call
    is the value at the end of the walk with one change of sign per level. *)
Lemma search_shape limit b ge st :
  exists acts tail,
    calls (search limit b ge st).2 = calls st ++ map Step acts ++ tail /\
    game (search limit b ge st).2 = replay (game st) acts /\
    (length acts <= limit)%nat /\
    (forall x, x ∈ acts -> 0 <= x < action_dim) /\
    ((tail = [] /\
      forall v, (search limit b ge st).1 = Ok v ->
                (length acts < limit)%nat /\
                v = ((-1) ^ length acts)%R) \/
     (exists b', tail = [Predict b'] /\
                 forall v, (search limit b ge st).1 = Ok v ->
                           (length acts < limit)%nat /\
                           v = (- (-1) ^ length acts * (predict b').1)%R)).
Proof.
  revert b ge st. induction limit as [| limit IH]; intros b ge st.
  - exists [], []. cbn. rewrite app_nil_r.
    split; [done |]. split; [done |]. split; [done |].
    split; [intros x Hx; by apply elem_of_nil in Hx |].
    left. split; [done |]. by intros v [=].
  - rewrite search_S. cbn zeta.
    destruct (enter_fields (array2string b) ge st)
      as (Hg0 & _ & _ & _ & _ & Hc0).
    assert (forall x, x ∈ ([] : list Z) -> 0 <= x < action_dim) as Hnil
        by (intros x Hx; by apply elem_of_nil in Hx).
    destruct (default ge (Es st !! array2string b)).
    { exists [], []. cbn [fst snd map length]. rewrite Hg0, Hc0, !app_nil_r.
      split; [done |]. split; [done |]. split; [lia |]. split; [done |].
      left. split; [done |]. intros v [= <-]. split; [lia |]. cbn. lra. }
    destruct (contains (Ps st) (array2string b)).
    + destruct (select st (array2string b)) as [a | e] eqn:Hsel.
      * pose proof (select_range _ _ _ Hsel) as Ha.
        destruct (IH (step (game st) a).2.1 (step (game st) a).2.2
                     (descend (array2string b) ge a st))
          as (acts & tail & Hcalls & Hgame & Hlen & Hacts & Hval).
        rewrite descend_calls, descend_game in *.
        exists (a :: acts), tail.
        assert (forall st3,
                   calls st3 = calls (search limit (step (game st) a).2.1
                                        (step (game st) a).2.2
                                        (descend (array2string b) ge a st)).2 ->
                   game st3 = game (search limit (step (game st) a).2.1
                                      (step (game st) a).2.2
                                      (descend (array2string b) ge a st)).2 ->
                   calls st3 = calls st ++ map Step (a :: acts) ++ tail /\
                   game st3 = replay (game st) (a :: acts) /\
                   (length (a :: acts) <= S limit)%nat /\
                   (forall x, x ∈ a :: acts -> 0 <= x < action_dim))
          as Hframe.
        { intros st3 Hc Hg. rewrite Hc, Hg, Hcalls, Hgame.
          split; [by rewrite <- app_assoc |]. split; [done |].
          split; [cbn [length]; lia |].
          intros x Hx. apply elem_of_cons in Hx as [-> | Hx]; auto. }
        destruct (search limit _ _ _) as [[v | e] st2] eqn:Hrec;
          cbn [fst snd] in *.
        -- pose proof (backup_frame (array2string b) a v st2) as Hb.
           cbn zeta in Hb. destruct Hb as (Hg & _ & _ & _ & _ & _ & Hc).
           destruct (Hframe (backup (array2string b) a v st2).2 Hc Hg)
             as (F1 & F2 & F3 & F4).
           destruct (backup _ _ _ _) as [[[] | e] st3]; cbn [fst snd] in *;
             (split; [done |]; split; [done |]; split; [done |];
              split; [done |]).
           ++ destruct Hval as [[-> Hv] | (b' & -> & Hv)].
              ** left. split; [done |]. intros v' [= <-].
                 destruct (Hv v eq_refl) as [Hd ->].
                 split; [cbn [length]; lia |]. cbn [length pow]. lra.
              ** right. exists b'. split; [done |]. intros v' [= <-].
                 destruct (Hv v eq_refl) as [Hd ->].
                 split; [cbn [length]; lia |]. cbn [length pow]. lra.
           ++ destruct Hval as [[-> _] | (b' & -> & _)].
              ** left. split; [done |]. by intros v' [=].
              ** right. exists b'. split; [done |]. by intros v' [=].
        -- destruct (Hframe st2 eq_refl eq_refl) as (F1 & F2 & F3 & F4).
           split; [done |]. split; [done |]. split; [done |].
           split; [done |].
           destruct Hval as [[-> _] | (b' & -> & _)].
           ++ left. split; [done |]. by intros v' [=].
           ++ right. exists b'. split; [done |]. by intros v' [=].
      * exists [], []. cbn [fst snd map length]. rewrite Hg0, Hc0, !app_nil_r.
        split; [done |]. split; [done |]. split; [lia |]. split; [done |].
        left. split; [done |]. by intros v [=].
    + rewrite expand_eq. exists [], [Predict b]. cbn [fst snd map length].
      fields. rewrite Hg0, Hc0.
      split; [done |]. split; [done |]. split; [lia |]. split; [done |].
      right. exists b. split; [done |]. intros v [= <-].
      split; [lia |]. cbn. lra.
Qed.

(** X9. Whatever the engine, the calls a [search] makes to its
    collaborators are a run of moves of the range, no more than the
    recursion limit, followed by at most one query of the estimator;
    and it leaves the environment in the configuration these moves lead
    to: it never puts the environment back where the call started. *)
Theorem search_walk limit b game_ended st :
  exists acts tail,
    calls (search limit b game_ended st).2
    = calls st ++ map Step acts ++ tail /\
    (tail = [] \/ exists b', tail = [Predict b']) /\
    game (search limit b game_ended st).2 = replay (game st) acts /\
    (length acts <= limit)%nat /\
    (forall x, x ∈ acts -> 0 <= x < action_dim).
Proof.
  destruct (search_shape limit b game_ended st)
    as (acts & tail & Hc & Hg & Hlen & Hacts & Hval).
  exists acts, tail. split; [done |]. split; [| done].
  destruct Hval as [[-> _] | (b' & -> & _)]; eauto.
Qed.

(** X10. A call of [search] that returns has made [d] moves, fewer than
    the recursion limit, and then either met a terminal state and returns
    [(-1) ^ d], or queried the estimator on a leaf [b'] and returns the
    value of [b'] times [(-1) ^ (d + 1)]: one change of sign per level. *)
Theorem search_value limit b game_ended st v st' :
  search limit b game_ended st = (Ok v, st') ->
  exists acts,
    (length acts < limit)%nat /\
    ((calls st' = calls st ++ map Step acts /\
      v = ((-1) ^ length acts)%R) \/
     (exists b', calls st' = calls st ++ map Step acts ++ [Predict b'] /\
                 v = ((-1) ^ (length acts + 1) * (predict b').1)%R)).
Proof.
  intros Hret.
  destruct (search_shape limit b game_ended st)
    as (acts & tail & Hc & _ & Hlen & _ & Hval).
  rewrite Hret in Hc, Hval. cbn [fst snd] in *.
  exists acts.
  destruct Hval as [[-> Hv] | (b' & -> & Hv)];
    destruct (Hv v eq_refl) as [Hd ->]; (split; [done |]).
  - left. by rewrite app_nil_r in Hc.
  - right. exists b'. split; [done |]. rewrite pow_add. cbn [pow]. lra.
Qed.

(** *** Visits accumulate *)

Lemma search_counts_grow limit b ge st :
  wf st -> tidy st ->
  tidy (search limit b ge st).2 /\
  forall s n, Ns st !! s = Some n ->
              exists n', Ns (search limit b ge st).2 !! s = Some n' /\
                         (n <= n')%nat.
Proof.
  intros Hwf Ht.
  apply (search_preserves
           (fun st' => tidy st' /\
                       forall s n, Ns st !! s = Some n ->
                                   exists n', Ns st' !! s = Some n' /\
                                              (n <= n')%nat));
    [| | | | done | by eauto].
  - intros s ge' st' [Ht' Hle]. split; [by apply tidy_enter |].
    by destruct (enter_fields s ge' st') as (_ & _ & _ & -> & _).
  - intros b' st' _ [Ht' Hle] Hleaf Hlive. split; [by apply tidy_expand |].
    intros s n Hn. destruct (Hle s n Hn) as (n' & Hn' & Hnn').
    exists n'. split; [| done]. rewrite expand_eq. cbn [snd]. fields.
    rewrite lookup_insert_ne; [done |]. intros <-.
    destruct (tidy_counted _ _ _ Ht' (array2string b')) as [p Hp];
      [by eexists | congruence].
  - intros a f st' [Ht' Hle] _. split; [by apply tidy_step | done].
  - intros s a v st' _ [Ht' Hle] HP _ _.
    split; [by apply tidy_backed_up |].
    intros s0 n Hn. destruct (Hle s0 n Hn) as (n' & Hn' & Hnn').
    assert (Ns (backed_up s a v st')
            = <[s := (default 0%nat (Ns st' !! s) + 1)%nat]> (Ns st'))
      as -> by (unfold backed_up;
                by destruct (Qsa st' !! (s, a)), (Nsa st' !! (s, a))).
    destruct (decide (s = s0)) as [-> | Hne].
    + rewrite lookup_insert_eq, Hn'. cbn. eexists. split; [done | lia].
    + rewrite lookup_insert_ne by done. eauto.
Qed.








Lemma simulations_two limit b st v1 st1 v2 st2 :
  search limit b false st = (Ok v1, st1) ->
  search limit b false st1 = (Ok v2, st2) ->
  simulations limit 2 b st = (Ok tt, st2).
Proof. intros H1 H2. by rewrite simulations_S, H1, simulations_S, H2. Qed.

(** *** Nothing is evicted *)

Lemma search_edges_grow limit b ge st :
  wf st ->
  forall k n, Nsa st !! k = Some n ->
              exists n', Nsa (search limit b ge st).2 !! k = Some n' /\
                         (n <= n')%nat.
Proof.
  intros Hwf.
  apply (search_preserves
           (fun st' => forall k n, Nsa st !! k = Some n ->
                                   exists n', Nsa st' !! k = Some n' /\
                                              (n <= n')%nat));
    [| | | | done | by eauto].
  - intros s ge' st' Hle.
    by destruct (enter_fields s ge' st') as (_ & _ & -> & _).
  - intros b' st' _ Hle _ _. by rewrite expand_eq.
  - intros a f st' Hle _. done.
  - intros s a v st' Hwf' Hle _ _ _ k n Hn.
    destruct (Hle k n Hn) as (n' & Hn' & Hnn').
    destruct (decide ((s, a) = k)) as [<- | Hne].
    + destruct (wf_edges _ Hwf' (s, a)) as [_ [q Hq]]; [by eexists |].
      unfold backed_up. rewrite Hq, Hn'. fields.
      rewrite lookup_insert_eq. eexists. split; [done | lia].
    + exists n'. split; [| done]. unfold backed_up.
      destruct (Qsa st' !! (s, a)), (Nsa st' !! (s, a)); fields;
        by rewrite lookup_insert_ne.
Qed.

(** X18. The tree only grows. A call of [search] on an engine reached
    from a new one removes nothing: cached flags and priors stay as they
    are, every visit count of a state or an edge stays or increases, every
    edge keeps a value, and the log is extended. *)
Theorem tree_only_grows limit b game_ended st :
  reachable st ->
  let st' := (search limit b game_ended st).2 in
  (forall s e, Es st !! s = Some e -> Es st' !! s = Some e) /\
  (forall s p, Ps st !! s = Some p -> Ps st' !! s = Some p) /\
  (forall s n, Ns st !! s = Some n ->
               exists n', Ns st' !! s = Some n' /\ (n <= n')%nat) /\
  (forall k n, Nsa st !! k = Some n ->
               exists n', Nsa st' !! k = Some n' /\ (n <= n')%nat) /\
  (forall k, is_Some (Qsa st !! k) -> is_Some (Qsa st' !! k)) /\
  (exists new, calls st' = calls st ++ new).
Proof.
  intros Hreach. cbn zeta.
  pose proof (reachable_wf st Hreach) as Hwf.
  pose proof (reachable_tidy st Hreach) as Ht.
  pose proof (search_extends limit b game_ended st) as [_ _ HE HP Hc].
  pose proof (search_wf limit b game_ended st Hwf) as Hwf'.
  split; [done |]. split; [done |].
  split; [apply (search_counts_grow limit b game_ended st Hwf Ht) |].
  split; [by apply search_edges_grow |]. split.
  - intros k Hk. apply (wf_edges _ Hwf) in Hk as [n Hn].
    destruct (search_edges_grow limit b game_ended st Hwf k n Hn)
      as (n' & Hn' & _).
    apply (wf_edges _ Hwf'). by eexists.
  - destruct Hc as (new & Hnew & _). by exists new.
Qed.

End Properties.

(** ** Properties of the training driver *)

Section TrainProperties.

Import Train.

(** *** The split of the epochs over the workers *)

Lemma range_constant (q n : Z) :
  map (fun _ : Z => q) (range n) = replicate (Z.to_nat n) q.
Proof.
  unfold range. rewrite map_map. generalize 0%nat.
  induction (Z.to_nat n) as [| k IH]; intros m; [done |].
  cbn. by rewrite IH.
Qed.

Lemma replicate_snoc {A} (k : nat) (x : A) :
  replicate (S k) x = replicate k x ++ [x].
Proof. induction k as [| k IH]; [done |]. cbn. by rewrite <- IH. Qed.

Lemma increment_front (q : Z) (k m : nat) :
  increment (replicate k (q + 1) ++ replicate (S m) q) (Z.of_nat k)
  = Ok (replicate (S k) (q + 1) ++ replicate m q).
Proof.
  set (l := replicate k (q + 1) ++ replicate (S m) q).
  assert (length l = (k + S m)%nat) as Hlen
      by (unfold l; by rewrite length_app, !length_replicate).
  assert (py_getitem l (Z.of_nat k) = Ok q) as Hget.
  { rewrite (py_getitem_nth _ _ 0) by lia. rewrite Nat2Z.id. unfold l.
    rewrite app_nth2 by (rewrite length_replicate; lia).
    by rewrite length_replicate, Nat.sub_diag. }
  assert (py_setitem l (Z.of_nat k) (q + 1)
          = Ok (replicate (S k) (q + 1) ++ replicate m q)) as Hset.
  { unfold py_setitem. rewrite Hlen.
    destruct (Z.ltb_spec (Z.of_nat k) 0) as [? | _]; [lia |].
    destruct (Z.ltb_spec (Z.of_nat k) 0) as [? | _]; [lia |].
    destruct (Z.ltb_spec (Z.of_nat k) (Z.of_nat (k + S m))) as [_ | ?];
      [| lia].
    f_equal. rewrite Nat2Z.id. unfold l.
    rewrite insert_app_r_alt by (rewrite length_replicate; lia).
    rewrite length_replicate, Nat.sub_diag. cbn [replicate].
    change (<[0%nat := (q + 1)%Z]> (q :: replicate m q))
      with ([q + 1] ++ replicate m q).
    by rewrite app_assoc, <- replicate_snoc. }
  unfold increment. by rewrite Hget.
Qed.

Lemma increment_all_front (q : Z) (j k m : nat) :
  (j <= m)%nat ->
  increment_all (replicate k (q + 1) ++ replicate m q)
                (map Z.of_nat (seq k j))
  = Ok (replicate (k + j) (q + 1) ++ replicate (m - j) q).
Proof.
  revert k m. induction j as [| j IH]; intros k m Hj.
  - cbn. by rewrite Nat.add_0_r, Nat.sub_0_r.
  - destruct m as [| m]; [lia |]. cbn [seq map increment_all].
    rewrite increment_front. rewrite IH by lia.
    by replace (S k + j)%nat with (k + S j)%nat by lia.
Qed.

Lemma sumZ_app (l k : list Z) : sumZ (l ++ k) = sumZ l + sumZ k.
Proof. unfold sumZ. induction l as [| x l IH]; cbn; lia. Qed.

Lemma sumZ_replicate (n : nat) (x : Z) :
  sumZ (replicate n x) = Z.of_nat n * x.
Proof. unfold sumZ. induction n as [| n IH]; cbn [replicate fold_right]; lia. Qed.

(** X12. With a positive number of processes, the list of epochs per
    worker has one entry per process, the entries sum to [epochs], and
    they differ by at most one: the first [epochs % num_processes] workers
    get one epoch more than the others. No subscript fails. *)
Theorem worker_epochs_split (epochs num_processes : Z) :
  0 < num_processes ->
  let q := epochs / num_processes in
  let r := epochs mod num_processes in
  worker_epochs_list epochs num_processes
  = Ok (replicate (Z.to_nat r) (q + 1)
        ++ replicate (Z.to_nat (num_processes - r)) q) /\
  length (replicate (Z.to_nat r) (q + 1)
          ++ replicate (Z.to_nat (num_processes - r)) q)
  = Z.to_nat num_processes /\
  sumZ (replicate (Z.to_nat r) (q + 1)
        ++ replicate (Z.to_nat (num_processes - r)) q) = epochs.
Proof.
  intros Hn. cbn zeta.
  pose proof (Z.mod_pos_bound epochs num_processes Hn) as Hr.
  pose proof (Z.div_mod epochs num_processes ltac:(lia)) as Hdiv.
  split; [| split].
  - unfold worker_epochs_list, py_floordiv, py_mod.
    destruct (Z.eqb_spec num_processes 0) as [? | _]; [lia |].
    rewrite (mapM_ok _ (fun _ => epochs / num_processes)) by done.
    rewrite range_constant.
    pose proof (increment_all_front (epochs / num_processes)
                  (Z.to_nat (epochs mod num_processes)) 0
                  (Z.to_nat num_processes) ltac:(lia)) as H.
    cbn [replicate app Nat.add] in H. unfold range. rewrite H.
    do 3 f_equal. lia.
  - rewrite length_app, !length_replicate. lia.
  - rewrite sumZ_app, !sumZ_replicate. rewrite !Z2Nat.id by lia. lia.
Qed.

(** *** The histories *)

Lemma elem_of_range2 (lo hi k : Z) : k ∈ range2 lo hi <-> lo <= k < hi.
Proof.
  unfold range2. rewrite list_elem_of_fmap. split.
  - intros (i & -> & Hi). apply elem_of_seq in Hi. lia.
  - intros Hk. exists (Z.to_nat (k - lo)). split; [lia |].
    apply elem_of_seq. lia.
Qed.

Lemma length_range2 (lo hi : Z) : length (range2 lo hi) = Z.to_nat (hi - lo).
Proof. unfold range2. by rewrite length_map, length_seq. Qed.

Lemma NoDup_range2 (lo hi : Z) : NoDup (range2 lo hi).
Proof.
  unfold range2. apply NoDup_fmap_2; [| apply NoDup_seq].
  intros i j H. lia.
Qed.

(** Filling in one value under the keys [f idx]. *)
Lemma fill_lookup {V} (f : Z -> Z) (v : V) (l : list Z) (h : gmap Z V) k :
  fold_left (fun h idx => <[f idx := v]> h) l h !! k
  = if decide (k ∈ map f l) then Some v else h !! k.
Proof.
  revert h. induction l as [| x l IH]; intros h; cbn [fold_left map].
  - destruct (decide (k ∈ [])) as [H | _]; [by apply elem_of_nil in H | done].
  - rewrite IH. destruct (decide (k ∈ map f l)) as [Hin | Hout].
    + rewrite decide_True; [done |]. by apply list_elem_of_further.
    + destruct (decide (f x = k)) as [<- | Hne].
      * rewrite lookup_insert_eq. rewrite decide_True; [done |].
        apply list_elem_of_here.
      * rewrite lookup_insert_ne by done.
        rewrite decide_False; [done |].
        intros H. apply elem_of_cons in H as [-> | H]; done.
Qed.

Lemma fill_dom {V} (v : V) (l : list Z) (h : gmap Z V) :
  dom (fold_left (fun h idx => <[idx := v]> h) l h)
  = list_to_set l ∪ dom h.
Proof.
  revert h. induction l as [| x l IH]; intros h; cbn [fold_left].
  - by rewrite list_to_set_nil, union_empty_l_L.
  - rewrite IH, dom_insert_L, list_to_set_cons.
    rewrite union_assoc_L. f_equal. apply union_comm_L.
Qed.

Lemma prefill_loss_lookup (start_epoch k : Z) :
  prefill_loss start_epoch ∅ !! k
  = if decide (1 <= k < start_epoch) then Some [0%R] else None.
Proof.
  unfold prefill_loss.
  rewrite (fill_lookup (fun idx => idx) [0%R]). rewrite map_id.
  destruct (decide (k ∈ range2 1 start_epoch)) as [H | H];
    rewrite elem_of_range2 in H.
  - by rewrite decide_True.
  - by rewrite decide_False, lookup_empty.
Qed.

Lemma prefill_loss_size (start_epoch : Z) :
  size (prefill_loss start_epoch ∅) = Z.to_nat (start_epoch - 1).
Proof.
  rewrite <- size_dom. unfold prefill_loss.
  rewrite (fill_dom [0%R]), dom_empty_L, union_empty_r_L.
  rewrite size_list_to_set by apply NoDup_range2.
  apply length_range2.
Qed.

(** Recording a loss on a history with contiguous keys. *)
Lemma record_loss_contiguous (loss : R) (h : gmap Z (list R)) :
  contiguous h ->
  contiguous (record_loss loss h) /\
  size (record_loss loss h) = S (size h) /\
  record_loss loss h !! (Z.of_nat (size h) + 1) = Some [loss] /\
  forall k, k <> Z.of_nat (size h) + 1 -> record_loss loss h !! k = h !! k.
Proof.
  intros Hc. unfold record_loss. cbn zeta.
  assert (h !! (Z.of_nat (size h) + 1) = None) as Hnew.
  { destruct (h !! (Z.of_nat (size h) + 1)) eqn:E; [| done].
    destruct (Hc (Z.of_nat (size h) + 1)) as [H _].
    specialize (H ltac:(by eexists)). lia. }
  assert (size (<[Z.of_nat (size h) + 1 := [loss]]> h) = S (size h))
    as Hsize by (by apply map_size_insert_None).
  split; [| split; [done | split]].
  - intros k. rewrite Hsize.
    destruct (decide (Z.of_nat (size h) + 1 = k)) as [<- | Hne].
    + rewrite lookup_insert_eq. split; [lia | by eexists].
    + rewrite lookup_insert_ne by done. rewrite (Hc k). lia.
  - apply lookup_insert_eq.
  - intros k Hk. by rewrite lookup_insert_ne.
Qed.

(** X13. The loss history stays in step with the epochs. After a resume,
    the history filled in from an empty one holds a zero loss under each
    key from 1 up to the checkpoint's epoch, so its keys are contiguous;
    and on a history with contiguous keys, recording a loss adds the key
    one past the last, overwrites nothing and keeps the keys contiguous. A
    resumed run therefore records its first loss under [start_epoch]. *)
Theorem loss_history_contiguous (start_epoch : Z) (loss : R)
        (h : gmap Z (list R)) :
  (contiguous (prefill_loss start_epoch ∅) /\
   size (prefill_loss start_epoch ∅) = Z.to_nat (start_epoch - 1) /\
   (1 <= start_epoch ->
    record_loss loss (prefill_loss start_epoch ∅) !! start_epoch
    = Some [loss])) /\
  (contiguous h ->
   let n := Z.of_nat (size h) in
   contiguous (record_loss loss h) /\
   size (record_loss loss h) = S (size h) /\
   record_loss loss h !! (n + 1) = Some [loss] /\
   forall k, k <> n + 1 -> record_loss loss h !! k = h !! k).
Proof.
  pose proof (record_loss_contiguous loss) as Hrecord.
  assert (contiguous (prefill_loss start_epoch ∅)) as Hpre.
  { intros k. rewrite prefill_loss_size, prefill_loss_lookup.
    destruct (decide (1 <= k < start_epoch)).
    - split; [lia | by eexists].
    - split; [by intros [? ?] | lia]. }
  split; [| apply Hrecord].
  split; [done |]. split; [apply prefill_loss_size |].
  intros Hstart.
  destruct (Hrecord _ Hpre) as (_ & _ & Hkey & _).
  rewrite prefill_loss_size in Hkey.
  by replace (Z.of_nat (Z.to_nat (start_epoch - 1)) + 1) with start_epoch
    in Hkey by lia.
Qed.

(** X14. Resuming with [validation_epoch = 0] raises
    [ZeroDivisionError]. With a positive [validation_epoch] the validation
    history filled in from an empty one has a row of
    [sample_scramble_count] zeros under each positive multiple of
    [validation_epoch] up to the checkpoint's epoch, and nothing else. *)
Theorem prefill_valid_keys (start_epoch validation_epoch scrambles : Z) :
  (validation_epoch = 0 ->
   prefill_valid start_epoch validation_epoch scrambles ∅
   = Raise ZeroDivisionError) /\
  (0 < validation_epoch ->
   exists h,
     prefill_valid start_epoch validation_epoch scrambles ∅ = Ok h /\
     forall k,
       h !! k
       = if decide (0 < k <= start_epoch - 1 /\ k mod validation_epoch = 0)
         then Some (replicate (Z.to_nat scrambles) 0%R)
         else None).
Proof.
  split.
  - intros ->. reflexivity.
  - intros Hve. unfold prefill_valid, py_floordiv.
    destruct (Z.eqb_spec validation_epoch 0) as [? | _]; [lia |].
    eexists. split; [reflexivity |]. intros k.
    rewrite (fill_lookup (fun idx => idx * validation_epoch)).
    rewrite lookup_empty.
    set (n := (start_epoch - 1) / validation_epoch).
    destruct (decide (k ∈ map (fun idx => idx * validation_epoch)
                        (range2 1 (n + 1)))) as [Hin | Hout].
    + apply list_elem_of_fmap in Hin as (idx & -> & Hidx).
      apply elem_of_range2 in Hidx.
      rewrite decide_True; [done |]. split.
      * split; [nia |].
        assert (idx <= n) as Hle by lia. unfold n in Hle.
        pose proof (Z.mul_div_le (start_epoch - 1) validation_epoch Hve).
        nia.
      * apply Z_mod_mult.
    + rewrite decide_False; [done |]. intros [[Hk1 Hk2] Hmod].
      apply Hout. apply list_elem_of_fmap.
      pose proof (Z_div_exact_full_2 k validation_epoch ltac:(lia) Hmod)
        as Hk.
      assert (k / validation_epoch <= n) as Hle
          by (apply Z.div_le_mono; lia).
      exists (k / validation_epoch). split; [lia |].
      apply elem_of_range2. split; [| lia].
      destruct (Z.le_gt_cases 1 (k / validation_epoch)); [done | nia].
Qed.

(** *** The validation loop *)

Section ValidationProperties.

Context {world state action : Type}.
Variable get_action : world -> state -> world * action.
Variable reset : world -> Z -> Z -> world * state.
Variable step : world -> action -> world * (state * bool).

Local Abbreviation episode := (Train.episode get_action step).
Local Abbreviation cubes := (Train.cubes get_action reset step).
Local Abbreviation scrambles := (Train.scrambles get_action reset step).
Local Abbreviation validation := (Train.validation get_action reset step).

Implicit Types (r : run (world := world)) (cfg : config).

Lemma episode_bounds timesteps r (s : state) :
  resets (episode timesteps r s).1 = resets r /\
  (steps r <= steps (episode timesteps r s).1 <= steps r + timesteps)%nat.
Proof.
  revert r s. induction timesteps as [| n IH]; intros r s; cbn [Train.episode].
  - cbn. lia.
  - destruct (get_action (now r) s) as [w1 a].
    destruct (step w1 a) as [w2 [next_state done]].
    destruct done; cbn [fst resets steps]; [lia |].
    destruct (IH (Run w2 (resets r) (S (steps r))) next_state) as [H1 H2].
    cbn [resets steps] in *. lia.
Qed.

(** The seeds of line 180 are always found by line 186. *)
Lemma seed_getitem (count idx : Z) :
  1 <= idx < count + 1 ->
  py_getitem (map (fun i => i * 10) (range count)) (idx - 1)
  = Ok ((idx - 1) * 10).
Proof.
  intros Hidx.
  assert (length (map (fun i => i * 10) (range count)) = Z.to_nat count)
    as Hlen by (unfold range; by rewrite !length_map, length_seq).
  rewrite (py_getitem_nth _ _ 0) by lia. f_equal.
  apply nth_lookup_Some with (d := 0). rewrite list_lookup_fmap.
  unfold range. rewrite list_lookup_fmap, lookup_seq_lt by lia. cbn.
  f_equal. lia.
Qed.

Lemma cubes_bounds cfg (depth : Z) (indices : list Z) r (solve_count : nat) :
  (forall idx, idx ∈ indices -> 1 <= idx < sample_cube_count cfg + 1) ->
  exists r' solved,
    cubes cfg (map (fun i => i * 10) (range (sample_cube_count cfg))) depth
          indices r solve_count = Ok (r', solved) /\
    resets r' = (resets r + length indices)%nat /\
    (steps r <= steps r'
     <= steps r + length indices * Z.to_nat (max_timesteps cfg))%nat /\
    (solve_count <= solved <= solve_count + length indices)%nat.
Proof.
  revert r solve_count.
  induction indices as [| idx rest IH]; intros r solve_count Hidx.
  - exists r, solve_count. cbn. repeat split; lia.
  - cbn [Train.cubes].
    rewrite seed_getitem by (apply Hidx, list_elem_of_here).
    destruct (reset (now r) ((idx - 1) * 10) depth) as [w s].
    rewrite length_range2.
    replace (max_timesteps cfg + 1 - 1) with (max_timesteps cfg) by lia.
    pose proof (episode_bounds (Z.to_nat (max_timesteps cfg))
                  (Run w (S (resets r)) (steps r)) s) as [He1 He2].
    destruct (episode _ _ s) as [r2 flag]. cbn [fst resets steps] in *.
    destruct (IH r2 (if flag then S solve_count else solve_count))
      as (r' & solved & Hrun & Hr & Hs & Hc).
    { intros i Hi. apply Hidx. by apply list_elem_of_further. }
    exists r', solved. split; [done |]. cbn [length].
    destruct flag; repeat split; lia.
Qed.

Lemma percentage_bounds (solved : nat) (count : Z) :
  count <> 0 -> (solved <= Z.to_nat count)%nat ->
  exists ratio,
    py_div (INR solved) (IZR count) = Ok ratio /\
    (0 <= ratio * 100 <= 100)%R.
Proof.
  intros Hcount Hsolved. unfold py_div.
  destruct (Req_dec_T (IZR count) 0) as [Hz | Hnz];
    [by apply eq_IZR_R0 in Hz |].
  eexists. split; [reflexivity |].
  destruct (Z.lt_trichotomy count 0) as [Hneg | [? | Hpos]]; [| lia |].
  - assert (solved = 0%nat) as -> by lia. cbn. unfold Rdiv.
    rewrite Rmult_0_l. lra.
  - assert (0 < IZR count)%R as Hc by (by apply IZR_lt).
    assert (0 <= INR solved <= IZR count)%R as [H1 H2].
    { split; [apply pos_INR |]. rewrite INR_IZR_INZ. apply IZR_le. lia. }
    assert (0 <= INR solved / IZR count <= 1)%R; [| lra].
    split.
    + apply Rmult_le_pos; [done |]. left. by apply Rinv_0_lt_compat.
    + apply Rmult_le_reg_r with (r := IZR count); [done |].
      unfold Rdiv. rewrite Rmult_assoc, Rinv_l by lra. lra.
Qed.

Lemma range2_in_cubes cfg idx :
  idx ∈ range2 1 (sample_cube_count cfg + 1) ->
  1 <= idx < sample_cube_count cfg + 1.
Proof. apply elem_of_range2. Qed.

Lemma scrambles_bounds cfg (depths : list Z) r (acc : list R) :
  sample_cube_count cfg <> 0 ->
  exists r' new,
    scrambles cfg (map (fun i => i * 10) (range (sample_cube_count cfg)))
              depths r acc = Ok (r', acc ++ new) /\
    length new = length depths /\
    (forall p, p ∈ new -> (0 <= p <= 100)%R) /\
    resets r'
    = (resets r + length depths * Z.to_nat (sample_cube_count cfg))%nat /\
    (steps r'
     <= steps r + length depths * Z.to_nat (sample_cube_count cfg)
                  * Z.to_nat (max_timesteps cfg))%nat.
Proof.
  intros Hcount. revert r acc.
  induction depths as [| depth rest IH]; intros r acc.
  - exists r, []. cbn. rewrite app_nil_r.
    split; [done |]. split; [done |].
    split; [intros p Hp; by apply elem_of_nil in Hp | lia].
  - cbn [Train.scrambles].
    destruct (cubes_bounds cfg depth
                (range2 1 (sample_cube_count cfg + 1)) r 0
                (range2_in_cubes cfg))
      as (r1 & solved & -> & Hr & Hs & Hc).
    rewrite length_range2 in Hr, Hs, Hc.
    replace (sample_cube_count cfg + 1 - 1) with (sample_cube_count cfg)
      in * by lia.
    destruct (percentage_bounds solved (sample_cube_count cfg) Hcount)
      as (ratio & -> & Hratio); [lia |].
    destruct (IH r1 (acc ++ [(ratio * 100)%R]))
      as (r' & new & -> & Hlen & Hall & Hr' & Hs').
    exists r', ((ratio * 100)%R :: new).
    split; [by rewrite <- app_assoc |].
    split; [cbn; lia |]. split.
    + intros p Hp. apply elem_of_cons in Hp as [-> | Hp]; auto.
    + cbn [length]. split; [lia | nia].
Qed.

(** X15. With a number of cubes other than 0, [validation] returns: it
    stores under [epoch] one percentage per scramble depth, each between
    0 and 100, and leaves the other entries of the history alone. It
    resets the environment once per cube and depth, and makes at most
    [max_timesteps] moves after each reset. *)
Theorem validation_percentages cfg (epoch : Z) (h : gmap Z (list R)) r :
  sample_cube_count cfg <> 0 ->
  let depths := Z.to_nat (sample_scramble_count cfg) in
  let count := Z.to_nat (sample_cube_count cfg) in
  exists r' percentages,
    validation cfg epoch h r = Ok (r', <[epoch := percentages]> h) /\
    length percentages = depths /\
    (forall p, p ∈ percentages -> (0 <= p <= 100)%R) /\
    resets r' = (resets r + depths * count)%nat /\
    (steps r'
     <= steps r + depths * count * Z.to_nat (max_timesteps cfg))%nat.
Proof.
  intros Hcount. cbn zeta. unfold Train.validation.
  destruct (scrambles_bounds cfg
              (range2 1 (sample_scramble_count cfg + 1)) r [] Hcount)
    as (r' & new & -> & Hlen & Hall & Hr & Hs).
  rewrite length_range2 in Hlen, Hr, Hs.
  replace (sample_scramble_count cfg + 1 - 1)
    with (sample_scramble_count cfg) in * by lia.
  exists r', new. by cbn.
Qed.

(** X16. With no cubes, that is [sample_cube_count = 0], and at least one
    scramble depth, [validation] raises [ZeroDivisionError] at the first
    percentage and stores nothing; with no scramble depth it stores an
    empty list and never touches the environment. *)
Theorem validation_without_cubes cfg (epoch : Z) (h : gmap Z (list R)) r :
  (sample_cube_count cfg = 0 -> 1 <= sample_scramble_count cfg ->
   validation cfg epoch h r = Raise ZeroDivisionError) /\
  (sample_scramble_count cfg <= 0 ->
   validation cfg epoch h r = Ok (r, <[epoch := []]> h)).
Proof.
  split.
  - intros Hcubes Hdepths. unfold Train.validation. rewrite Hcubes.
    assert (range2 1 (sample_scramble_count cfg + 1)
            = 1 :: range2 2 (sample_scramble_count cfg + 1)) as ->.
    { unfold range2.
      replace (Z.to_nat (sample_scramble_count cfg + 1 - 1))
        with (S (Z.to_nat (sample_scramble_count cfg + 1 - 2))) by lia.
      cbn [seq map]. f_equal. rewrite <- seq_shift, map_map.
      apply map_ext. intros i. lia. }
    cbn [Train.scrambles]. rewrite Hcubes.
    change (range2 1 (0 + 1)) with ([] : list Z). cbn [Train.cubes].
    unfold py_div. by destruct (Req_dec_T (IZR 0) 0).
  - intros Hdepths. unfold Train.validation.
    assert (range2 1 (sample_scramble_count cfg + 1) = []) as ->; [| done].
    unfold range2.
    by replace (Z.to_nat (sample_scramble_count cfg + 1 - 1)) with 0%nat
      by lia.
Qed.

(** When every episode ends the same way. *)
Lemma cubes_constant cfg (depth : Z) (indices : list Z) r (solve_count : nat)
      (flag : bool) :
  (forall idx, idx ∈ indices -> 1 <= idx < sample_cube_count cfg + 1) ->
  (forall r0 s,
      (episode (Z.to_nat (max_timesteps cfg)) r0 s).2 = flag /\
      steps (episode (Z.to_nat (max_timesteps cfg)) r0 s).1
      = (steps r0 + if flag then 1 else 0)%nat) ->
  exists r',
    cubes cfg (map (fun i => i * 10) (range (sample_cube_count cfg))) depth
          indices r solve_count
    = Ok (r', (solve_count + if flag then length indices else 0)%nat) /\
    steps r' = (steps r + if flag then length indices else 0)%nat.
Proof.
  intros Hidx Hflag. revert r solve_count Hidx.
  induction indices as [| idx rest IH]; intros r solve_count Hidx.
  - exists r. cbn. split; [do 2 f_equal |]; destruct flag; lia.
  - cbn [Train.cubes].
    rewrite seed_getitem by (apply Hidx, list_elem_of_here).
    destruct (reset (now r) ((idx - 1) * 10) depth) as [w s].
    rewrite length_range2.
    replace (max_timesteps cfg + 1 - 1) with (max_timesteps cfg) by lia.
    destruct (Hflag (Run w (S (resets r)) (steps r)) s) as [Hf Hsteps].
    destruct (episode _ _ s) as [r2 flag']. cbn [fst snd steps] in *.
    subst flag'.
    destruct (IH r2 (if flag then S solve_count else solve_count))
      as (r' & Hrun & Hs).
    { intros i Hi. apply Hidx. by apply list_elem_of_further. }
    exists r'. rewrite Hrun. cbn [length].
    split; [do 2 f_equal |]; destruct flag; lia.
Qed.

Lemma scrambles_constant cfg (depths : list Z) r (acc : list R)
      (flag : bool) :
  sample_cube_count cfg <> 0 ->
  (forall r0 s,
      (episode (Z.to_nat (max_timesteps cfg)) r0 s).2 = flag /\
      steps (episode (Z.to_nat (max_timesteps cfg)) r0 s).1
      = (steps r0 + if flag then 1 else 0)%nat) ->
  let count := Z.to_nat (sample_cube_count cfg) in
  exists r',
    scrambles cfg (map (fun i => i * 10) (range (sample_cube_count cfg)))
              depths r acc
    = Ok (r', acc ++ replicate (length depths)
                       (INR (if flag then count else 0)
                        / IZR (sample_cube_count cfg) * 100)%R) /\
    steps r'
    = (steps r + if flag then length depths * count else 0)%nat.
Proof.
  intros Hcount Hflag. cbn zeta. revert r acc.
  induction depths as [| depth rest IH]; intros r acc.
  - exists r. cbn. rewrite app_nil_r. split; [done |]. destruct flag; lia.
  - cbn [Train.scrambles].
    destruct (cubes_constant cfg depth
                (range2 1 (sample_cube_count cfg + 1)) r 0 flag
                (range2_in_cubes cfg) Hflag) as (r1 & -> & Hs).
    rewrite length_range2 in *.
    replace (sample_cube_count cfg + 1 - 1) with (sample_cube_count cfg)
      in * by lia.
    unfold py_div.
    destruct (Req_dec_T (IZR (sample_cube_count cfg)) 0) as [Hz | _];
      [by apply eq_IZR_R0 in Hz |].
    destruct (IH r1 (acc ++
                     [(INR (0 + (if flag
                                 then Z.to_nat (sample_cube_count cfg)
                                 else 0))
                       / IZR (sample_cube_count cfg) * 100)%R]))
      as (r' & -> & Hs').
    exists r'. split.
    + rewrite <- app_assoc. cbn [length replicate app]. by rewrite Nat.add_0_l.
    + cbn [length]. destruct flag; lia.
Qed.

(** X17. The two extremes of [validation]. With a step budget of 0 or
    less no move is made and every percentage is 0. When every move solves
    the cube, the budget is at least 1 and there is at least one cube,
    every percentage is 100 and exactly one move is made per cube: the
    count of solved cubes starts again at each scramble depth. *)
Theorem validation_extremes cfg (epoch : Z) (h : gmap Z (list R)) r :
  let depths := Z.to_nat (sample_scramble_count cfg) in
  let count := Z.to_nat (sample_cube_count cfg) in
  (max_timesteps cfg <= 0 -> sample_cube_count cfg <> 0 ->
   exists r',
     validation cfg epoch h r
     = Ok (r', <[epoch := replicate depths 0%R]> h) /\
     steps r' = steps r) /\
  ((forall w a, (step w a).2.2 = true) ->
   1 <= max_timesteps cfg -> 1 <= sample_cube_count cfg ->
   exists r',
     validation cfg epoch h r
     = Ok (r', <[epoch := replicate depths 100%R]> h) /\
     steps r' = (steps r + depths * count)%nat).
Proof.
  cbn zeta. split.
  - intros Hbudget Hcount. unfold Train.validation.
    destruct (scrambles_constant cfg
                (range2 1 (sample_scramble_count cfg + 1)) r [] false Hcount)
      as (r' & -> & Hs).
    { intros r0 s.
      replace (Z.to_nat (max_timesteps cfg)) with 0%nat by lia.
      cbn. split; [done | lia]. }
    exists r'. rewrite length_range2.
    replace (sample_scramble_count cfg + 1 - 1)
      with (sample_scramble_count cfg) by lia.
    split; [| lia]. cbn [app].
    assert ((INR 0 / IZR (sample_cube_count cfg) * 100)%R = 0%R) as ->
        by (cbn; unfold Rdiv; by rewrite !Rmult_0_l).
    done.
  - intros Hdone Hbudget Hcount. unfold Train.validation.
    destruct (scrambles_constant cfg
                (range2 1 (sample_scramble_count cfg + 1)) r [] true)
      as (r' & -> & Hs); [lia | |].
    { intros r0 s.
      replace (Z.to_nat (max_timesteps cfg))
        with (S (Z.to_nat (max_timesteps cfg - 1))) by lia.
      cbn [Train.episode].
      destruct (get_action (now r0) s) as [w1 a].
      pose proof (Hdone w1 a) as Hd.
      destruct (step w1 a) as [w2 [next_state done]]. cbn in Hd. subst done.
      cbn. split; [done | lia]. }
    exists r'. rewrite length_range2 in *.
    replace (sample_scramble_count cfg + 1 - 1)
      with (sample_scramble_count cfg) in * by lia.
    split; [| lia]. cbn [app].
    assert ((INR (Z.to_nat (sample_cube_count cfg))
             / IZR (sample_cube_count cfg) * 100)%R = 100%R) as ->
        by (rewrite INR_IZR_INZ, Z2Nat.id by lia; field;
            apply not_0_IZR; lia).
    done.
Qed.

(** *** The loop of a worker *)

Variable get_random_samples : world -> world.
Variable update_params : world -> world * R.

Local Abbreviation epochs_loop :=
  (Train.epochs_loop get_action reset step get_random_samples update_params).
Local Abbreviation single_train_loop :=
  (Train.single_train_loop get_action reset step get_random_samples
                           update_params).

Lemma validation_returns cfg (epoch : Z) (h : gmap Z (list R)) r :
  sample_cube_count cfg <> 0 ->
  exists r' percentages,
    validation cfg epoch h r = Ok (r', <[epoch := percentages]> h).
Proof.
  intros Hcount. unfold Train.validation.
  destruct (scrambles_bounds cfg
              (range2 1 (sample_scramble_count cfg + 1)) r [] Hcount)
    as (r' & new & -> & _).
  by exists r', new.
Qed.

Lemma epochs_loop_records (remaining : nat) (local_epoch : Z)
      (sample_epoch validation_epoch : Z) cfg r
      (lh vh : gmap Z (list R)) :
  sample_epoch <> 0 -> validation_epoch <> 0 ->
  sample_cube_count cfg <> 0 -> contiguous lh ->
  exists r' lh' vh',
    epochs_loop remaining local_epoch sample_epoch validation_epoch cfg r
                lh vh = Ok (r', (lh', vh')) /\
    contiguous lh' /\
    size lh' = (size lh + remaining)%nat /\
    (forall k, k <= Z.of_nat (size lh) -> lh' !! k = lh !! k) /\
    (forall k, is_Some (vh' !! k) <->
               is_Some (vh !! k) \/
               (Z.of_nat (size lh) < k <= Z.of_nat (size lh + remaining) /\
                k mod validation_epoch = 0)).
Proof.
  intros Hs Hv Hcount. revert local_epoch r lh vh.
  induction remaining as [| n IH]; intros local_epoch r lh vh Hc.
  - exists r, lh, vh. cbn. split; [done |]. split; [done |].
    split; [lia |]. split; [done |]. intros k. split; [by left |].
    intros [H | H]; [done | lia].
  - cbn [Train.epochs_loop]. unfold py_mod.
    destruct (Z.eqb_spec sample_epoch 0) as [? | _]; [done |].
    destruct (Z.eqb_spec validation_epoch 0) as [? | _]; [done |].
    destruct (update_params _) as [w2 loss].
    destruct (record_loss_contiguous loss lh Hc)
      as (Hc1 & Hsize1 & _ & Hold1).
    set (global_epoch := Z.of_nat (size lh) + 1) in *.
    destruct (Z.eqb_spec (global_epoch mod validation_epoch) 0)
      as [Hmod | Hmod].
    + destruct (validation_returns cfg global_epoch vh
                  (Run w2 (resets r) (steps r)) Hcount)
        as (r3 & pct & ->).
      destruct (IH (local_epoch + 1) r3 (record_loss loss lh)
                   (<[global_epoch := pct]> vh) Hc1)
        as (r' & lh' & vh' & -> & Hc' & Hsize' & Hold' & Hkeys').
      exists r', lh', vh'. split; [done |]. split; [done |].
      rewrite Hsize1 in *. split; [lia |]. split.
      * intros k Hk. rewrite Hold' by lia. apply Hold1. lia.
      * intros k. rewrite Hkeys'.
        destruct (decide (global_epoch = k)) as [<- | Hne].
        -- rewrite lookup_insert_eq. split; [| intros _; left; by eexists].
           intros _. right. split; [lia | done].
        -- rewrite lookup_insert_ne by done.
           split; (intros [H | H]; [by left | right]); [lia |].
           split; [| tauto]. lia.
    + destruct (IH (local_epoch + 1) (Run w2 (resets r) (steps r))
                   (record_loss loss lh) vh Hc1)
        as (r' & lh' & vh' & -> & Hc' & Hsize' & Hold' & Hkeys').
      exists r', lh', vh'. split; [done |]. split; [done |].
      rewrite Hsize1 in *. split; [lia |]. split.
      * intros k Hk. rewrite Hold' by lia. apply Hold1. lia.
      * intros k. rewrite Hkeys'.
        split; (intros [H | H]; [by left | right]); [lia |].
        split; [| tauto].
        destruct (decide (k = global_epoch)) as [-> | ?]; [tauto | lia].
Qed.

(** X19. The loop of one worker on its own. With sampling and validation
    periods other than 0, a number of validation cubes other than 0 and a
    loss history with contiguous keys, the loop completes: it
    records one loss per epoch under the next keys, keeps the earlier
    losses and the contiguity, and stores a validation row exactly under
    the new epochs that are multiples of [validation_epoch]. *)
Theorem worker_loop_records (local_epoch_max : Z)
        (sample_epoch validation_epoch : Z) cfg r
        (lh vh : gmap Z (list R)) :
  sample_epoch <> 0 -> validation_epoch <> 0 ->
  sample_cube_count cfg <> 0 -> contiguous lh ->
  let n := Z.to_nat local_epoch_max in
  exists r' lh' vh',
    single_train_loop local_epoch_max sample_epoch validation_epoch cfg r
                      lh vh = Ok (r', (lh', vh')) /\
    contiguous lh' /\
    size lh' = (size lh + n)%nat /\
    (forall k, k <= Z.of_nat (size lh) -> lh' !! k = lh !! k) /\
    (forall k, is_Some (vh' !! k) <->
               is_Some (vh !! k) \/
               (Z.of_nat (size lh) < k <= Z.of_nat (size lh + n) /\
                k mod validation_epoch = 0)).
Proof. intros Hs Hv Hcount Hc. by apply epochs_loop_records. Qed.

(** X20. A period of 0 stops a worker in its first epoch: with at least
    one epoch to run, [sample_epoch = 0] raises [ZeroDivisionError] before
    any parameter update, and so does [validation_epoch = 0] after the
    first update. *)
Theorem worker_loop_zero_period (local_epoch_max : Z)
        (sample_epoch validation_epoch : Z) cfg r
        (lh vh : gmap Z (list R)) :
  1 <= local_epoch_max ->
  sample_epoch = 0 \/ validation_epoch = 0 ->
  single_train_loop local_epoch_max sample_epoch validation_epoch cfg r
                    lh vh = Raise ZeroDivisionError.
Proof.
  intros Hn Hzero. unfold Train.single_train_loop.
  replace (Z.to_nat local_epoch_max)
    with (S (Z.to_nat (local_epoch_max - 1))) by lia.
  cbn [Train.epochs_loop]. unfold py_mod.
  destruct (Z.eqb_spec sample_epoch 0) as [? | Hs]; [done |].
  destruct Hzero as [? | ->]; [done |].
  destruct (update_params _) as [w2 loss]. reflexivity.
Qed.

End ValidationProperties.

End TrainProperties.

(** ** The properties at work in the two worlds *)

Section Worlds.

Import Scenario.

Local Abbreviation search_fresh :=
  (MCTS.search array2string step_fresh predict).
Local Abbreviation search_loop :=
  (MCTS.search array2string step_loop predict).
Local Abbreviation reachable_fresh :=
  (MCTS.reachable array2string step_fresh predict choice).

Lemma expanded_reachable step sims :
  MCTS.reachable array2string step predict choice (expanded step sims).
Proof. apply reach_search, reach_init. Qed.

Lemma visited_reachable sims : reachable_fresh (visited sims).
Proof. apply reach_search, expanded_reachable. Qed.

(** In the first world the second simulation cannot be run by
    computation, since it compares real numbers; the scenario lemmas give
    its outcome. *)
Lemma visited_stats :
  Ps (visited 2) !! root = Some prior6 /\
  Qsa (visited 2) !! (root, 0) = Some (- (1 / 2))%R.
Proof.
  pose proof (scenario_second array2string step_fresh predict root 1%R tt
                root (fun _ => eq_refl) (fun _ _ => eq_refl)
                ltac:(done) 0%nat) as H.
  match type of H with
  | _ = (_, ?st) =>
      assert (visited 2 = st) as -> by (exact (f_equal snd H))
  end.
  split; reflexivity.
Qed.

(** The two simulations in the first world, within a recursion limit of 2. *)
Lemma two_simulations_witness :
  exists final,
    MCTS.getActionProb array2string step_fresh predict choice 2 root 0
                       (fresh 2)
    = (Ok [1; 0; 0; 0; 0; 0]%R, final).
Proof.
  destruct (two_simulations array2string step_fresh predict choice
              root 1%R tt root) with (limit := 0%nat)
    as (after1 & child2 & after2 & final & H);
    [reflexivity | reflexivity | done | reflexivity |].
  exists final. apply H.
Defined.

(** Selection at the expanded root of the first world. *)
Lemma selection_maximises_witness :
  exists a, select (expanded step_fresh 2) root = Ok a /\
            0 <= a < action_dim.
Proof.
  destruct (selection_maximises array2string step_fresh predict choice
              1 root false (expanded step_fresh 2) prior6)
    as (a & Hsel & Ha & _);
    [apply expanded_reachable | reflexivity | reflexivity | reflexivity |].
  by exists a.
Defined.

(** The backup of the second simulation in the first world. *)
Lemma backup_running_mean_witness :
exists st3 k,
  search_fresh 2 root false (expanded step_fresh 2)
  = (Ok (- - (1 / 2))%R, st3) /\
  Ns st3 !! root = Some (k + 1)%nat.
Proof.
  destruct (search_fresh 1 ("m" +:+ root)%string false
              (descend step_fresh root false 0 (expanded step_fresh 2)))
    as [r st2] eqn:Hinner.
  assert (r = Ok (- (1 / 2))%R) as ->
      by (change r with (r, st2).1; rewrite <- Hinner; reflexivity).
  destruct (backup_running_mean array2string step_fresh predict choice
              1 root false (expanded step_fresh 2) 0 (- (1 / 2))%R st2)
    as (st3 & k & Hret & _ & _ & _ & _ & Hk);
    [apply expanded_reachable | reflexivity | by eexists
     | exact (scenario_select array2string root 1%R tt root)
     | exact Hinner |].
  by exists st3, k.
Defined.

(** The first simulation expands the root and queries the estimator once. *)
Lemma leaf_expansion_once_witness :
  exists st',
    search_fresh 1 root false (fresh 1) = (Ok (- (1 / 2))%R, st') /\
    Ps st' !! root = Some prior6 /\ calls st' = [Predict root].
Proof.
  destruct (leaf_expansion_once array2string step_fresh predict
              0 root false (fresh 1)) as [Hleaf _].
  destruct Hleaf as (st' & Hret & HP & _ & Hcalls & _);
    [reflexivity | reflexivity |].
  by exists st'.
Defined.

(** C4 as stated fails on a state that is terminal at first sight: its
    prior is unset, yet the estimator is not queried, no prior is stored
    and the call returns 1, not the negated value. *)
Lemma terminal_leaf_not_expanded :
  Ps (fresh 1) !! root = None /\
  (search_fresh 1 root true (fresh 1)).1 = Ok 1%R /\
  1%R <> (- (predict root).1)%R /\
  calls (search_fresh 1 root true (fresh 1)).2 = [] /\
  Ps (search_fresh 1 root true (fresh 1)).2 !! root = None /\
  Ns (search_fresh 1 root true (fresh 1)).2 !! root = None.
Proof.
  repeat split; try reflexivity. cbn. lra.
Qed.

(** A root that is terminal at first sight: the flag is stored and the
    call returns 1. *)
Lemma terminal_flag_frozen_witness :
  Es (fresh 1) !! root = None /\
  search_fresh 1 root true (fresh 1)
  = (Ok 1%R, upd_Es <[root := true]> (fresh 1)).
Proof.
  split; [reflexivity |].
  destruct (terminal_flag_frozen array2string step_fresh predict
              0 root true (fresh 1)) as (_ & _ & _ & Hnew).
  apply Hnew. reflexivity.
Defined.

(** Conservation at the root after two simulations in the first world. *)
Lemma count_conservation_witness :
  Ns (visited 2) !! root = Some (edge_visits (visited 2) root).
Proof.
  destruct (count_conservation array2string step_fresh predict choice
              (visited 2) root) as [Hsum _];
    [apply visited_reachable | exists prior6; apply visited_stats
     | exact Hsum].
Defined.

(** The value stored on the edge (root, 0) after two simulations. *)
Lemma value_bound_witness : (-1 <= - (1 / 2) <= 1)%R.
Proof.
  apply (value_bound array2string step_fresh predict choice (visited 2))
    with (s := root) (a := 0).
  - intros b. cbn. lra.
  - apply visited_reachable.
  - apply visited_stats.
Defined.

(** One simulation and temperature 1: every root count is 0 and the
    normalisation divides by zero. *)
Lemma zero_counts_raise_witness :
  exists st',
    MCTS.getActionProb array2string step_fresh predict choice 1 root 1
                       (fresh 1)
    = (Raise ZeroDivisionError, st').
Proof.
  eexists.
  apply (zero_counts_raise array2string step_fresh predict choice
           1 root 1%R (fresh 1)).
  - apply R1_neq_R0.
  - reflexivity.
  - intros n Hn.
    change (n ∈ [0; 0; 0; 0; 0; 0]%nat) in Hn.
    repeat (apply elem_of_cons in Hn as [-> | Hn]; [done |]).
    by apply elem_of_nil in Hn.
Defined.

(** On a new engine the walk ends at the root, which is not expanded. *)
Lemma search_returns_iff_witness :
  exists v st', search_fresh 1 root false (fresh 1) = (Ok v, st').
Proof.
  apply (search_returns_iff array2string step_fresh predict choice);
    [apply reach_init |].
  exists 0%nat. split; [lia |]. right. reflexivity.
Defined.

(** In the world whose moves lead back to the root, a walk from the
    expanded root only meets the expanded root. *)
Lemma loop_overflows limit (st : MCTS.mcts board env rng) :
  wf st -> game st = root -> Es st !! array2string root = Some false ->
  Ps st !! array2string root = Some prior6 ->
  (search_loop limit root false st).1 = Raise RecursionError.
Proof.
  revert st. induction limit as [| limit IH];
    intros st Hwf Hgame HEs HPs; [reflexivity |].
  destruct (select_ok st (array2string root) prior6 Hwf HPs eq_refl)
    as (a & Hsel & Ha).
  rewrite (search_inner array2string step_loop predict limit root false st a);
    [| by rewrite HEs | by eexists | exact Hsel].
  change ((step_loop (game st) a).2.1) with (game st).
  change ((step_loop (game st) a).2.2) with false.
  rewrite Hgame.
  assert (descend step_loop (array2string root) false a st
          = log (Step a) (upd_game (fun g => (step_loop g a).1) st)) as Hdown
      by (unfold descend; by rewrite (enter_seen _ false st false)).
  pose proof (wf_descend step_loop (array2string root) false a st Hwf)
    as Hwf'.
  rewrite Hdown in Hwf' |- *.
  specialize (IH _ Hwf').
  destruct (search_loop limit root false _) as [[v | e] st2];
    cbn [fst] in *.
  - discriminate IH; done.
  - by apply IH.
Qed.

(** C9 as stated fails in that world: whatever the recursion limit, the
    call on the expanded root ends in [RecursionError]; it never returns. *)
Lemma search_loops_in_cycle :
  MCTS.reachable array2string step_loop predict choice
                 (expanded step_loop 1) /\
  (forall limit,
      (search_loop limit root false (expanded step_loop 1)).1
      = Raise RecursionError) /\
  ~ exists limit v st',
      search_loop limit root false (expanded step_loop 1) = (Ok v, st').
Proof.
  assert (forall limit,
             (search_loop limit root false (expanded step_loop 1)).1
             = Raise RecursionError) as H.
  { intros limit. apply loop_overflows; try reflexivity.
    apply (reachable_wf array2string step_loop predict choice).
    apply expanded_reachable. }
  split; [apply expanded_reachable |]. split; [done |].
  intros (limit & v & st' & Hret). specialize (H limit).
  by rewrite Hret in H.
Qed.


End Worlds.

(** ** The further properties at work *)

Section MoreWorlds.

Import Scenario.

Local Abbreviation search_fresh :=
  (MCTS.search array2string step_fresh predict).
Local Abbreviation search_loop :=
  (MCTS.search array2string step_loop predict).
Local Abbreviation simulations_fresh :=
  (MCTS.simulations array2string step_fresh predict).
Local Abbreviation getActionProb_fresh :=
  (MCTS.getActionProb array2string step_fresh predict choice).

(** The random choice of the worlds takes one of its candidates. *)
Lemma choice_member (r : rng) (l : list Z) : l <> [] -> (choice r l).1 ∈ l.
Proof. destruct l as [| x l]; [done |]. intros _. apply list_elem_of_here. Qed.

(** Two simulations from a new engine in the first world complete and
    leave the root counts [1, 0, 0, 0, 0, 0]. *)
Lemma fresh_two_simulations :
  exists st1,
    simulations_fresh 2 2 root (fresh 2) = (Ok tt, st1) /\
    root_counts st1 (array2string root) = [1; 0; 0; 0; 0; 0]%nat.
Proof.
  pose proof (scenario_first array2string step_fresh predict root 1%R tt
                root (fun _ => eq_refl) 1%nat) as H1.
  pose proof (scenario_second array2string step_fresh predict root 1%R tt
                root (fun _ => eq_refl) (fun _ _ => eq_refl)
                ltac:(done) 0%nat) as H2.
  pose proof (scenario_counts array2string step_fresh root 1%R tt root)
    as H3.
  eexists. split; [| exact H3].
  exact (simulations_two array2string step_fresh predict 2 root (fresh 2)
           _ _ _ _ H1 H2).
Qed.


Lemma greedy_one_hot_witness :
  exists a, 0 <= a < action_dim /\
            (getActionProb_fresh 2 root 0 (fresh 2)).1 = Ok (one_hot 6 a).
Proof.
  destruct fresh_two_simulations as (st1 & Hsims & _).
  destruct (greedy_one_hot array2string step_fresh predict choice
              2 root (fresh 2) st1 choice_member Hsims)
    as (a & Ha & _ & Hret).
  by exists a.
Defined.



Lemma negative_temperature_raises_witness :
  getActionProb_fresh 0 root (-1) (fresh 0)
  = (Raise ZeroDivisionError, fresh 0).
Proof.
  apply (negative_temperature_raises array2string step_fresh predict choice
           0 root (-1)%R (fresh 0) (fresh 0)); [lra | reflexivity |].
  change (0%nat ∈ [0; 0; 0; 0; 0; 0]%nat). apply list_elem_of_here.
Defined.

Lemma statistics_shape_witness :
  is_Some (Ns (visited 2) !! array2string root) /\
  is_Some (Nsa (visited 2) !! (array2string root, 0)).
Proof.
  destruct (statistics_shape array2string step_fresh predict choice
              (visited 2) (visited_reachable 2)) as (Hkeys & _ & Hcount & _).
  destruct visited_stats as [HP HQ].
  split.
  - apply Hcount. by exists prior6.
  - apply Hkeys. by eexists.
Defined.

Lemma terminal_states_bare_witness :
  Es (search_fresh 1 root true (fresh 1)).2 !! root = Some true /\
  Ps (search_fresh 1 root true (fresh 1)).2 !! root = None.
Proof.
  split; [reflexivity |].
  destruct (terminal_states_bare array2string step_fresh predict choice
              (search_fresh 1 root true (fresh 1)).2 root) as [Hbare _];
    [apply reach_search, reach_init |].
  by destruct Hbare as (HP & _); [reflexivity |].
Defined.

Lemma estimator_once_per_key_witness :
  NoDup (map array2string (queried (calls (visited 2)))).
Proof.
  by destruct (estimator_once_per_key array2string step_fresh predict choice
                 (visited 2) (visited_reachable 2)) as [Hnodup _].
Defined.

Lemma failed_search_keeps_statistics_witness :
  Ns (search_loop 3 root false (expanded step_loop 1)).2
  = Ns (expanded step_loop 1).
Proof.
  destruct (search_loop 3 root false (expanded step_loop 1))
    as [out st'] eqn:Hrun.
  assert (out = Raise RecursionError) as ->.
  { change out with (out, st').1. rewrite <- Hrun.
    apply loop_overflows; try reflexivity.
    apply (reachable_wf array2string step_loop predict choice).
    apply expanded_reachable. }
  destruct (failed_search_keeps_statistics array2string step_loop predict
              choice 3 root false (expanded step_loop 1) RecursionError st'
              (expanded_reachable step_loop 1) Hrun)
    as ((_ & _ & HNs & _) & _).
  exact HNs.
Defined.

Lemma search_value_witness :
  exists acts : list Z, (length acts < 1)%nat.
Proof.
  destruct (search_fresh 1 root false (fresh 1)) as [out st'] eqn:Hrun.
  assert (out = Ok (- (1 / 2))%R) as ->
      by (change out with (out, st').1; rewrite <- Hrun; reflexivity).
  destruct (search_value array2string step_fresh predict
              1 root false (fresh 1) _ st' Hrun) as (acts & Hlen & _).
  by exists acts.
Defined.


Lemma tree_only_grows_witness :
  exists n', Ns (visited 2) !! array2string root = Some n' /\ (0 <= n')%nat.
Proof.
  destruct (tree_only_grows array2string step_fresh predict choice
              2 root false (expanded step_fresh 2)
              (expanded_reachable step_fresh 2))
    as (_ & _ & Hcounts & _).
  apply (Hcounts (array2string root) 0%nat). reflexivity.
Defined.

Lemma worker_epochs_split_witness :
  Train.worker_epochs_list 10 3 = Ok [4; 3; 3] /\
  Train.sumZ [4; 3; 3] = 10.
Proof.
  destruct (worker_epochs_split 10 3 ltac:(lia)) as (Hlist & _ & Hsum).
  split; [exact Hlist | exact Hsum].
Defined.

Lemma loss_history_contiguous_witness :
  Train.record_loss 7 (Train.prefill_loss 3 ∅) !! 3 = Some [7%R].
Proof.
  destruct (loss_history_contiguous 3 7%R ∅) as [(_ & _ & Hkey) _].
  apply Hkey. lia.
Defined.

Lemma prefill_valid_keys_witness :
  exists h, Train.prefill_valid 5 2 3 ∅ = Ok h /\
            h !! 4 = Some [0%R; 0%R; 0%R] /\ h !! 3 = None.
Proof.
  destruct (prefill_valid_keys 5 2 3) as [_ Hkeys].
  destruct (Hkeys ltac:(lia)) as (h & Hret & Hlookup).
  exists h. split; [done |]. split; rewrite Hlookup; reflexivity.
Defined.

Lemma validation_percentages_witness :
  exists r' percentages,
    Train.validation Arena.get_action Arena.reset Arena.step Arena.cfg 1 ∅
                     Arena.start
    = Ok (r', <[1 := percentages]> ∅) /\
    length percentages = 2%nat.
Proof.
  destruct (validation_percentages Arena.get_action Arena.reset Arena.step
              Arena.cfg 1 ∅ Arena.start)
    as (r' & percentages & Hret & Hlen & _); [done |].
  by exists r', percentages.
Defined.

Lemma validation_without_cubes_witness :
  Train.validation Arena.get_action Arena.reset Arena.step
                   (Train.Config 5 2 0) 1 ∅ Arena.start
  = Raise ZeroDivisionError.
Proof.
  destruct (validation_without_cubes Arena.get_action Arena.reset Arena.step
              (Train.Config 5 2 0) 1 ∅ Arena.start) as [Hraise _].
  by apply Hraise.
Defined.

Lemma validation_extremes_witness :
  exists r',
    Train.validation Arena.get_action Arena.reset Arena.step
                     (Train.Config 0 2 3) 1 ∅ Arena.start
    = Ok (r', <[1 := [0%R; 0%R]]> ∅) /\
    Train.steps r' = 0%nat.
Proof.
  destruct (validation_extremes Arena.get_action Arena.reset Arena.step
              (Train.Config 0 2 3) 1 ∅ Arena.start) as [Hzero _].
  by apply Hzero.
Defined.

Lemma worker_loop_records_witness :
  exists r' lh' vh',
    Train.single_train_loop Arena.get_action Arena.reset Arena.step
      Arena.get_random_samples Arena.update_params 4 2 2 Arena.cfg
      Arena.start ∅ ∅ = Ok (r', (lh', vh')) /\
    size lh' = 4%nat /\ is_Some (vh' !! 4) /\ ~ is_Some (vh' !! 3).
Proof.
  destruct (worker_loop_records Arena.get_action Arena.reset Arena.step
              Arena.get_random_samples Arena.update_params 4 2 2 Arena.cfg
              Arena.start ∅ ∅)
    as (r' & lh' & vh' & Hret & _ & Hsize & _ & Hkeys);
    [done | done | done | |].
  { intros k. rewrite lookup_empty, map_size_empty. split; [| lia].
    by intros [? ?]. }
  exists r', lh', vh'. split; [done |]. split; [by rewrite Hsize |].
  split.
  - apply Hkeys. right. rewrite map_size_empty. split; [lia | reflexivity].
  - intros H. apply Hkeys in H as [H | [_ H]]; [| done].
    rewrite lookup_empty in H. by destruct H.
Defined.

Lemma worker_loop_zero_period_witness :
  Train.single_train_loop Arena.get_action Arena.reset Arena.step
    Arena.get_random_samples Arena.update_params 4 0 2 Arena.cfg
    Arena.start ∅ ∅ = Raise ZeroDivisionError.
Proof.
  apply (worker_loop_zero_period Arena.get_action Arena.reset Arena.step
           Arena.get_random_samples Arena.update_params); [lia | by left].
Defined.

End MoreWorlds.
